(** * The content-addressed result cache (services/cache_service.py)

    A shallow embedding of the [LRUCache] class: a bounded, time-expiring
    key/value store with least-recently-used eviction and usage counters.

    Modelling conventions.
    - The [OrderedDict] that backs the cache is an association list; the
      head of the list is the least recently used entry (the one
      [popitem(last=False)] removes), the last element the most recently
      used one.
    - [time.time()] is an input: every operation receives the clock
      readings it makes.  [set] reads the clock twice (first for
      [expires_at], then for [created_at]); [size] and [cleanup_expired]
      read it once per scanned entry, so they receive a function from the
      scan position to the reading made there.  Instants and durations are
      integers of one common unit; only their order, sums and differences
      matter.
    - Python integers are [Z].  The floating-point figures of [get_stats]
      are IEEE 754 binary64 numbers ([spec_float] at precision 53), every
      operation rounding to nearest, ties to even, as CPython does.
    - The re-entrant lock makes every method atomic; a method is a function
      from the state before to the result and the state after.

    Around the cache the development also covers the single-image
    endpoint of main.py, which reads and fills the cache, the text
    clean-up of utils/text_processor.py that runs before a result is
    stored, and the upload checks of utils/validators.py. *)

From Stdlib Require Import String List ZArith QArith Qround Bool.
From Stdlib Require Import Lia Lqa Sorted SpecFloat.
From Stdlib Require Strings.Ascii Strings.Byte Qpower.
Import ListNotations.

Local Open Scope Z_scope.

(** ** config.py: the part of [Config] the cache reads *)

Module Config.

Record t : Type := mk {
  CACHE_TTL_SECONDS : Z;
  CACHE_ENABLED : bool;
  CACHE_CLEANUP_INTERVAL : Z;
  MAX_CACHE_SIZE : Z
}.

(** The values used when the environment sets none. *)
Definition default : t :=
  {| CACHE_TTL_SECONDS := 3600;
     CACHE_ENABLED := true;
     CACHE_CLEANUP_INTERVAL := 300;
     MAX_CACHE_SIZE := 1000 |}.

End Config.

(** ** collections.OrderedDict with string keys *)

Module OrderedDict.

Section Ops.
Context {A : Type}.

Definition t : Type := list (string * A).

Definition keys (d : t) : list string := map fst d.

Definition values (d : t) : list A := map snd d.

(** [len(d)] *)
Definition len (d : t) : Z := Z.of_nat (length d).

(** [d[key]], [None] standing for [KeyError] *)
Fixpoint getitem (key : string) (d : t) : option A :=
  match d with
  | [] => None
  | (k, v) :: r => if String.eqb key k then Some v else getitem key r
  end.

(** [key in d] *)
Definition contains (key : string) (d : t) : bool :=
  match getitem key d with Some _ => true | None => false end.

(** [d[key] = v]: an existing key keeps its position, a new key goes last *)
Fixpoint setitem (key : string) (v : A) (d : t) : t :=
  match d with
  | [] => [(key, v)]
  | (k, w) :: r =>
      if String.eqb key k then (k, v) :: r else (k, w) :: setitem key v r
  end.

(** [del d[key]]; the callers test membership first, so the [KeyError] of
    an absent key never arises and an absent key leaves [d] as it is *)
Fixpoint delitem (key : string) (d : t) : t :=
  match d with
  | [] => []
  | (k, w) :: r =>
      if String.eqb key k then delitem key r else (k, w) :: delitem key r
  end.

(** [d.move_to_end(key)]; as for [delitem], the callers only pass keys
    that are present *)
Definition move_to_end (key : string) (d : t) : t :=
  match getitem key d with
  | Some v => delitem key d ++ [(key, v)]
  | None => d
  end.

(** [d.popitem(last=False)] on a non-empty dictionary *)
Definition popitem_first (d : t) : option ((string * A) * t) :=
  match d with
  | [] => None
  | kv :: r => Some (kv, r)
  end.

(** Keys are unique: the representation invariant of a dictionary. *)
Definition wf (d : t) : Prop := NoDup (keys d).

End Ops.

Arguments t : clear implicits.

End OrderedDict.

(** ** Python's [float]: IEEE 754 binary64 *)

Module Float.

Definition t : Type := spec_float.

Definition prec : Z := 53.
Definition emax : Z := 1024.

(** [0.0] *)
Definition zero : t := S754_zero false.

(** [x * y], [x / y] and [-x] on floats. *)
Definition mul : t -> t -> t := SFmul prec emax.
Definition div : t -> t -> t := SFdiv prec emax.
Definition neg : t -> t := SFopp.

(** The double nearest to the fraction [n / d], a tie going to the even
    mantissa. *)
Definition nearest_ratio (n d : positive) : t :=
  let '(m, e, l) := SFdiv_core_binary prec emax (Zpos n) 0 (Zpos d) 0 in
  binary_round_aux prec emax false m e l.

(** [a / b] on integers with [b > 0]: true division is correctly rounded.
    The same function reads a decimal literal: [1.2] is
    [true_div 12 10]. *)
Definition true_div (a : Z) (b : positive) : t :=
  match a with
  | Z0 => zero
  | Zpos n => nearest_ratio n b
  | Zneg n => neg (nearest_ratio n b)
  end.

(** [float(z)], the conversion an integer operand of a float operation
    undergoes. *)
Definition of_int (z : Z) : t := true_div z 1.

(** The integer nearest to a rational, a tie going to the even one. *)
Definition round_half_even (x : Q) : Z :=
  let f := Qfloor x in
  match Qcompare (x - inject_Z f)%Q (1 # 2) with
  | Lt => f
  | Gt => f + 1
  | Eq => if Z.even f then f else f + 1
  end.

(** [round(x, 2)]: the exact value of [x] is rounded to a whole number [n]
    of hundredths, a tie going to the even one, and the result is the
    double nearest to [n / 100] with the sign of [x]; zeros, infinities and
    NaN are returned as they are. *)
Definition round2 (x : t) : t :=
  match x with
  | S754_finite s m e =>
      let n := round_half_even (inject_Z (Zpos m) * Qpower 2 e * 100)%Q in
      let r := true_div n 100 in
      if s then neg r else r
  | _ => x
  end.

(** The exact value of a finite float; 0 for the others. *)
Definition value (x : t) : Q :=
  match x with
  | S754_finite s m e =>
      let v := (inject_Z (Zpos m) * Qpower 2 e)%Q in
      if s then (- v)%Q else v
  | _ => 0%Q
  end.

End Float.

(** ** class LRUCache *)

Module LRUCache.

Import Config.

Section Cache.

(** The cached payload (a [dict] in the source); the cache never looks
    inside it. *)
Context {V : Type}.

(** A cache entry: the dictionary with keys ['value'], ['expires_at'] and
    ['created_at']. *)
Record entry : Type := mk_entry {
  value : V;
  expires_at : Z;
  created_at : Z
}.

(** [self._stats] *)
Record stats : Type := mk_stats {
  hits : Z;
  misses : Z;
  evictions : Z;
  sets : Z
}.

(** The object: [self._cache] and [self._stats]. *)
Record t : Type := mk {
  _cache : OrderedDict.t entry;
  _stats : stats
}.

Definition zero_stats : stats :=
  {| hits := 0; misses := 0; evictions := 0; sets := 0 |}.

(** [__init__] *)
Definition init : t := {| _cache := []; _stats := zero_stats |}.

Definition with_cache (s : t) (c : OrderedDict.t entry) : t :=
  {| _cache := c; _stats := _stats s |}.

Definition incr_hits (st : stats) : stats :=
  {| hits := hits st + 1; misses := misses st;
     evictions := evictions st; sets := sets st |}.

Definition incr_misses (st : stats) : stats :=
  {| hits := hits st; misses := misses st + 1;
     evictions := evictions st; sets := sets st |}.

Definition incr_evictions (st : stats) : stats :=
  {| hits := hits st; misses := misses st;
     evictions := evictions st + 1; sets := sets st |}.

Definition incr_sets (st : stats) : stats :=
  {| hits := hits st; misses := misses st;
     evictions := evictions st; sets := sets st + 1 |}.

(** [_is_expired]: [time.time() > entry['expires_at']], [now] being the
    clock reading *)
Definition _is_expired (now : Z) (e : entry) : bool := expires_at e <? now.

(** [_evict_lru] *)
Definition _evict_lru (s : t) : t :=
  match OrderedDict.popitem_first (_cache s) with
  | Some (_, rest) =>
      {| _cache := rest; _stats := incr_evictions (_stats s) |}
  | None => s
  end.

(** [get]: [None] is a miss.  The clock is read only when the key is
    present. *)
Definition get (cfg : Config.t) (key : string) (now : Z) (s : t)
  : option V * t :=
  if negb (CACHE_ENABLED cfg) then (None, s)
  else
    match OrderedDict.getitem key (_cache s) with
    | Some e =>
        if _is_expired now e then
          (None, {| _cache := OrderedDict.delitem key (_cache s);
                    _stats := incr_misses (_stats s) |})
        else
          (Some (value e),
           {| _cache := OrderedDict.move_to_end key (_cache s);
              _stats := incr_hits (_stats s) |})
    | None => (None, {| _cache := _cache s;
                        _stats := incr_misses (_stats s) |})
    end.

(** [set]: [ttl = None] selects the configured default; [t1] is the clock
    reading used for [expires_at], [t2] the later one stored as
    [created_at]. *)
Definition set (cfg : Config.t) (key : string) (v : V) (ttl : option Z)
    (t1 t2 : Z) (s : t) : t :=
  if negb (CACHE_ENABLED cfg) then s
  else
    let ttl := match ttl with
               | None => CACHE_TTL_SECONDS cfg
               | Some x => x
               end in
    let s1 := if negb (OrderedDict.contains key (_cache s))
                 && (MAX_CACHE_SIZE cfg <=? OrderedDict.len (_cache s))
              then _evict_lru s else s in
    let c2 := OrderedDict.setitem key
                {| value := v; expires_at := t1 + ttl; created_at := t2 |}
                (_cache s1) in
    {| _cache := OrderedDict.move_to_end key c2;
       _stats := incr_sets (_stats s1) |}.

(** [delete] *)
Definition delete (key : string) (s : t) : t :=
  if OrderedDict.contains key (_cache s)
  then with_cache s (OrderedDict.delitem key (_cache s))
  else s.

(** [clear] *)
Definition clear (s : t) : t := with_cache s [].

(** The comprehension [[k for k, v in items() if self._is_expired(v)]]:
    the entry at scan position [i] is compared with the reading [clk i]. *)
Fixpoint expired_keys_from (clk : nat -> Z) (i : nat)
    (d : OrderedDict.t entry) : list string :=
  match d with
  | [] => []
  | (k, e) :: r =>
      if _is_expired (clk i) e
      then k :: expired_keys_from clk (S i) r
      else expired_keys_from clk (S i) r
  end.

Definition expired_keys (clk : nat -> Z) (d : OrderedDict.t entry)
  : list string := expired_keys_from clk 0%nat d.

(** [for key in expired_keys: del self._cache[key]] *)
Definition delete_all (ks : list string) (d : OrderedDict.t entry)
  : OrderedDict.t entry :=
  fold_left (fun c k => OrderedDict.delitem k c) ks d.

(** [size] *)
Definition size (clk : nat -> Z) (s : t) : Z * t :=
  let c := delete_all (expired_keys clk (_cache s)) (_cache s) in
  (OrderedDict.len c, with_cache s c).

(** [cleanup_expired] *)
Definition cleanup_expired (clk : nat -> Z) (s : t) : Z * t :=
  let ks := expired_keys clk (_cache s) in
  (Z.of_nat (length ks), with_cache s (delete_all ks (_cache s))).

(** [reset_stats] *)
Definition reset_stats (s : t) : t :=
  {| _cache := _cache s; _stats := zero_stats |}.

(** The dictionary [get_stats] returns. *)
Record stats_report : Type := mk_report {
  size_ : Z;
  max_size : Z;
  hits_ : Z;
  misses_ : Z;
  hit_rate : Float.t;
  evictions_ : Z;
  total_sets : Z;
  oldest_entry_age_seconds : option Float.t;
  estimated_memory_mb : Float.t;
  ttl_seconds : Z
}.

(** The unrounded [hit_rate] of [get_stats]:
    [(hits / total_requests * 100) if total_requests > 0 else 0.0] *)
Definition raw_hit_rate (st : stats) : Float.t :=
  let total_requests := hits st + misses st in
  match total_requests with
  | Zpos total =>
      Float.mul (Float.true_div (hits st) total) (Float.of_int 100)
  | _ => Float.zero
  end.

(** [get_stats]; [now] is the clock reading made when the cache is not
    empty.  An age of zero is falsy and is reported as [None]. *)
Definition get_stats (cfg : Config.t) (now : Z) (s : t) : stats_report :=
  let oldest_age :=
    match OrderedDict.values (_cache s) with
    | first_entry :: _ => Some (now - created_at first_entry)
    | [] => None
    end in
  let estimated :=
    Float.div
      (Float.mul (Float.of_int (OrderedDict.len (_cache s)))
                 (Float.true_div 12 10))
      (Float.of_int 1024) in
  {| size_ := OrderedDict.len (_cache s);
     max_size := MAX_CACHE_SIZE cfg;
     hits_ := hits (_stats s);
     misses_ := misses (_stats s);
     hit_rate := Float.round2 (raw_hit_rate (_stats s));
     evictions_ := evictions (_stats s);
     total_sets := sets (_stats s);
     oldest_entry_age_seconds :=
       match oldest_age with
       | Some a =>
           if a =? 0 then None else Some (Float.round2 (Float.of_int a))
       | None => None
       end;
     estimated_memory_mb := Float.round2 estimated;
     ttl_seconds := CACHE_TTL_SECONDS cfg |}.

(** *** Histories of calls *)

(** One call of a method of the cache, with its arguments and the clock
    readings it makes. *)
Inductive op : Type :=
| OpGet (key : string) (now : Z)
| OpSet (key : string) (v : V) (ttl : option Z) (t1 t2 : Z)
| OpDelete (key : string)
| OpClear
| OpSize (clk : nat -> Z)
| OpCleanupExpired (clk : nat -> Z)
| OpGetStats (now : Z)
| OpResetStats.

(** The state after one call. *)
Definition step (cfg : Config.t) (s : t) (o : op) : t :=
  match o with
  | OpGet key now => snd (get cfg key now s)
  | OpSet key v ttl t1 t2 => set cfg key v ttl t1 t2 s
  | OpDelete key => delete key s
  | OpClear => clear s
  | OpSize clk => snd (size clk s)
  | OpCleanupExpired clk => snd (cleanup_expired clk s)
  | OpGetStats _ => s
  | OpResetStats => reset_stats s
  end.

(** The state after a history of calls, oldest first. *)
Definition run (cfg : Config.t) (ops : list op) (s : t) : t :=
  fold_left (step cfg) ops s.

(** The key a call touches: the key of a [set] that is carried out and of
    a [get] that hits. *)
Definition touched (cfg : Config.t) (s : t) (o : op) : option string :=
  match o with
  | OpGet key now =>
      match fst (get cfg key now s) with
      | Some _ => Some key
      | None => None
      end
  | OpSet key _ _ _ _ => if CACHE_ENABLED cfg then Some key else None
  | _ => None
  end.

(** A map from keys to the number of the last call that touched them. *)
Definition touch_map : Type := string -> option nat.

Definition never_touched : touch_map := fun _ => None.

(** Call number [n] touched [k]. *)
Definition record_touch (lt : touch_map) (k : string) (n : nat) : touch_map :=
  fun k' => if String.eqb k' k then Some n else lt k'.

(** The map after call number [n], made in state [s]. *)
Definition touch_step (cfg : Config.t) (s : t) (o : op) (n : nat)
    (lt : touch_map) : touch_map :=
  match touched cfg s o with
  | Some k => record_touch lt k n
  | None => lt
  end.

(** [last_touch cfg ops n s lt]: the history [ops] is run from state [s],
    its calls numbered from [n]; [lt] is the map so far.  The result is
    the map at the end of the history. *)
Fixpoint last_touch (cfg : Config.t) (ops : list op) (n : nat) (s : t)
    (lt : touch_map) : touch_map :=
  match ops with
  | [] => lt
  | o :: r => last_touch cfg r (S n) (step cfg s o) (touch_step cfg s o n lt)
  end.

(** Whether some call of the history [ops], run from [s], touches [k]. *)
Fixpoint touches_key (cfg : Config.t) (k : string) (ops : list op) (s : t)
  : bool :=
  match ops with
  | [] => false
  | o :: r =>
      match touched cfg s o with
      | Some k' => String.eqb k k'
      | None => false
      end
      || touches_key cfg k r (step cfg s o)
  end.

(** A [set] call given by its arguments and clock readings. *)
Definition as_set (x : string * V * option Z * Z * Z) : op :=
  let '(k, v, ttl, t1, t2) := x in OpSet k v ttl t1 t2.

Definition key_of (x : string * V * option Z * Z * Z) : string :=
  let '(k, _, _, _, _) := x in k.

(** [k] was last touched strictly before [k'] was. *)
Definition touched_before (lt : touch_map) (k k' : string) : Prop :=
  match lt k, lt k' with
  | Some i, Some j => (i < j)%nat
  | _, _ => False
  end.

(** The store lists its keys from the least to the most recently touched. *)
Definition recency_ordered (lt : touch_map) (d : OrderedDict.t entry) : Prop :=
  StronglySorted (fun kv kv' => touched_before lt (fst kv) (fst kv')) d.

(** Every stored key was touched by a call numbered below [n]. *)
Definition touched_below (n : nat) (lt : touch_map) (d : OrderedDict.t entry)
  : Prop :=
  Forall (fun kv => exists i, lt (fst kv) = Some i /\ (i < n)%nat) d.

(** Whether a call counts as a hit or as a miss in the statistics. *)
Definition is_hit (cfg : Config.t) (s : t) (o : op) : bool :=
  match o with
  | OpGet key now =>
      match fst (get cfg key now s) with Some _ => true | None => false end
  | _ => false
  end.

Definition is_recorded_miss (cfg : Config.t) (s : t) (o : op) : bool :=
  match o with
  | OpGet key now =>
      CACHE_ENABLED cfg
      && match fst (get cfg key now s) with Some _ => false | None => true end
  | _ => false
  end.

(** The number of calls of a history, run from [s], that satisfy [p] in
    the state they are made in. *)
Fixpoint count_calls (cfg : Config.t) (p : t -> op -> bool) (ops : list op)
    (s : t) : Z :=
  match ops with
  | [] => 0
  | o :: r => (if p s o then 1 else 0) + count_calls cfg p r (step cfg s o)
  end.

Definition is_reset (o : op) : bool :=
  match o with OpResetStats => true | _ => false end.

(** *** Vocabulary of the statements below *)

(** The lifetime a [set] applies. *)
Definition effective_ttl (cfg : Config.t) (ttl : option Z) : Z :=
  match ttl with None => CACHE_TTL_SECONDS cfg | Some x => x end.

(** The state in which [set] inserts: after the eviction, if one is due. *)
Definition before_insert (cfg : Config.t) (key : string) (s : t) : t :=
  if negb (OrderedDict.contains key (_cache s))
     && (MAX_CACHE_SIZE cfg <=? OrderedDict.len (_cache s))
  then _evict_lru s else s.

(** Whether the expiry of a stored pair lies before the instant [lo]. *)
Definition past (lo : Z) (kv : string * entry) : bool :=
  expires_at (snd kv) <? lo.

Definition not_past (lo : Z) (kv : string * entry) : bool :=
  negb (past lo kv).

(** Membership of a key in a list of keys. *)
Definition key_in (ks : list string) (k : string) : bool :=
  existsb (String.eqb k) ks.

(** The lifetime of a [set] is at least the time that passes between its
    two clock readings; every other call satisfies this vacuously.  When
    the clock does not advance inside [set], the condition is that the
    lifetime is not negative. *)
Definition lifetime_covers_delay (cfg : Config.t) (o : op) : Prop :=
  match o with
  | OpSet _ _ ttl t1 t2 => t2 - t1 <= effective_ttl cfg ttl
  | _ => True
  end.

(** An entry does not expire before it is created. *)
Definition timestamps_ordered (kv : string * entry) : Prop :=
  created_at (snd kv) <= expires_at (snd kv).

(** The entry a [set] writes. *)
Definition new_entry (cfg : Config.t) (v : V) (ttl : option Z) (t1 t2 : Z)
  : entry :=
  {| value := v; expires_at := t1 + effective_ttl cfg ttl;
     created_at := t2 |}.

(** [key] is read at each of the instants [nows] in turn. *)
Definition reads (key : string) (nows : list Z) : list op :=
  map (OpGet key) nows.

End Cache.

Arguments entry : clear implicits.
Arguments op : clear implicits.
Arguments t : clear implicits.

End LRUCache.

(** ** Concrete configurations and histories *)

Module Scenario.

Import Config LRUCache.

Local Open Scope string_scope.

(** Capacity 2 and a default lifetime of 1000. *)
Definition cfg2 : Config.t :=
  {| CACHE_TTL_SECONDS := 1000;
     CACHE_ENABLED := true;
     CACHE_CLEANUP_INTERVAL := 300;
     MAX_CACHE_SIZE := 2 |}.

(** The same with caching switched off. *)
Definition cfg_off : Config.t :=
  {| CACHE_TTL_SECONDS := 1000;
     CACHE_ENABLED := false;
     CACHE_CLEANUP_INTERVAL := 300;
     MAX_CACHE_SIZE := 2 |}.

(** A capacity of zero, as [MAX_CACHE_SIZE=0] in the environment gives. *)
Definition cfg0 : Config.t :=
  {| CACHE_TTL_SECONDS := 1000;
     CACHE_ENABLED := true;
     CACHE_CLEANUP_INTERVAL := 300;
     MAX_CACHE_SIZE := 0 |}.

(** [set(a, X)], [set(b, Y)], [get(a)] at the instants 0, 1 and 2. *)
Definition warm_up : list (op string) :=
  [OpSet "a" "X" None 0 0; OpSet "b" "Y" None 1 1; OpGet "a" 2].

(** The state the warm-up leaves: [b] in front, [a] behind it. *)
Definition warm : LRUCache.t string := run cfg2 warm_up init.

(** The warm-up, then [set(c, Z)] at 3 and [get(b)] at 4. *)
Definition full_story : list (op string) :=
  warm_up ++ [OpSet "c" "Z" None 3 3; OpGet "b" 4].

(** The full story, then [get(d)] at 5: one hit and two misses. *)
Definition one_in_three : list (op string) :=
  full_story ++ [OpGet "d" 5].

(** An empty store whose counters stand at the given hits and misses. *)
Definition counted (h m : Z) : LRUCache.t string :=
  {| _cache := [];
     _stats := {| hits := h; misses := m; evictions := 0; sets := 0 |} |}.

(** A store of [n] entries, keyed by the one-character strings of the
    codes below [n]. *)
Definition crowd (n : nat) : LRUCache.t string :=
  {| _cache :=
       map (fun i => (String (Ascii.ascii_of_nat i) EmptyString,
                      {| value := "X"; expires_at := 1000; created_at := 0 |}))
           (seq 0 n);
     _stats := {| hits := 0; misses := 0; evictions := 0; sets := Z.of_nat n |} |}.

(** One [set] under a capacity of zero. *)
Definition one_set : list (op string) := [OpSet "a" "X" None 0 0].

(** One [set] with a negative lifetime. *)
Definition negative_ttl : list (op string) :=
  [OpSet "a" "X" (Some (-1)) 100 100].

(** A [set] with lifetime zero and one with the default lifetime whose
    clock advances by one between the readings. *)
Definition zero_ttl : list (op string) :=
  [OpSet "a" "X" (Some 0) 7 7; OpSet "b" "Y" None 8 9].

(** A store whose front entry [a] lives until 1000 and whose second entry
    [b] ran out at 5. *)
Definition stale_behind : LRUCache.t string :=
  {| _cache := [("a", {| value := "X"; expires_at := 1000; created_at := 0 |});
                ("b", {| value := "Y"; expires_at := 5; created_at := 1 |})];
     _stats := {| hits := 0; misses := 0; evictions := 0; sets := 2 |} |}.

End Scenario.

(** ** Bookkeeping of histories

    Further vocabulary for statements about whole histories of calls. *)

Module Accounting.

Import Config LRUCache.

Section Accounting.
Context {V : Type}.

(** A [set] that is carried out, that is, made with caching enabled. *)
Definition is_stored_set (cfg : Config.t) (s : LRUCache.t V) (o : op V)
  : bool :=
  match o with
  | OpSet _ _ _ _ _ => CACHE_ENABLED cfg
  | _ => false
  end.

(** A [set] that evicts: caching is enabled, the key is absent, the store
    has reached the capacity and holds an entry to evict. *)
Definition is_evicting_set (cfg : Config.t) (s : LRUCache.t V) (o : op V)
  : bool :=
  match o with
  | OpSet key _ _ _ _ =>
      CACHE_ENABLED cfg
      && negb (OrderedDict.contains key (_cache s))
      && (MAX_CACHE_SIZE cfg <=? OrderedDict.len (_cache s))
      && negb (Nat.eqb (length (_cache s)) 0)
  | _ => false
  end.

(** No call of the history is [reset_stats]. *)
Definition no_reset (ops : list (op V)) : bool :=
  forallb (fun o => negb (is_reset o)) ops.

(** Every counter of [st] is at most the same counter of [st']. *)
Definition stats_le (st st' : stats) : Prop :=
  hits st <= hits st' /\ misses st <= misses st'
  /\ evictions st <= evictions st' /\ sets st <= sets st'.

(** The entry has not expired at the instant [now]. *)
Definition live (now : Z) (kv : string * entry V) : Prop :=
  _is_expired now (snd kv) = false.

(** The clock that shows [now] at every reading. *)
Definition frozen (now : Z) : nat -> Z := fun _ => now.

End Accounting.

End Accounting.

(** ** utils/text_processor.py

    A Python [str] is a sequence of Unicode code points, here a list of
    natural numbers.  The three [re.sub] calls and the two [str.replace]
    calls have constant patterns; each is modelled by the function that
    scans the text from left to right as the library does for that
    pattern. *)

Module TextProcessor.

Local Open Scope N_scope.

Definition str : Type := list N.

Definition SPACE : N := 32.
Definition LF : N := 10.
Definition CR : N := 13.

(** The characters [\s] matches in a [str] pattern and [str.strip]
    removes: the Unicode whitespace characters. *)
Definition is_space (c : N) : bool :=
  ((9 <=? c) && (c <=? 13)) || ((28 <=? c) && (c <=? 32))
  || (c =? 133) || (c =? 160) || (c =? 5760)
  || ((8192 <=? c) && (c <=? 8202))
  || (c =? 8232) || (c =? 8233) || (c =? 8239) || (c =? 8287)
  || (c =? 12288).

(** The class [[.,!?;:]] *)
Definition is_punct (c : N) : bool :=
  (c =? 46) || (c =? 44) || (c =? 33) || (c =? 63) || (c =? 59) || (c =? 58).

(** [text.replace('\r\n', '\n')]: every carriage return that is followed
    by a line feed is dropped. *)
Fixpoint replace_crlf (text : str) : str :=
  match text with
  | [] => []
  | c :: r =>
      match r with
      | c' :: r' =>
          if (c =? CR) && (c' =? LF) then LF :: replace_crlf r'
          else c :: replace_crlf r
      | [] => [c]
      end
  end.

(** [text.replace('\r', '\n')] *)
Definition replace_cr (text : str) : str :=
  map (fun c => if c =? CR then LF else c) text.

(** [normalize_line_breaks] *)
Definition normalize_line_breaks (text : str) : str :=
  replace_cr (replace_crlf text).

(** [re.sub(r' +', ' ', text)]: a run of spaces becomes one space, that
    is, a space followed by a space is dropped. *)
Fixpoint collapse_spaces (text : str) : str :=
  match text with
  | [] => []
  | c :: r =>
      match r with
      | c' :: _ =>
          if (c =? SPACE) && (c' =? SPACE) then collapse_spaces r
          else c :: collapse_spaces r
      | [] => [c]
      end
  end.

(** [re.sub(r'\n{3,}', '\n\n', text)]: a run of three or more line feeds
    becomes two, that is, a line feed followed by two line feeds is
    dropped. *)
Fixpoint limit_newlines (text : str) : str :=
  match text with
  | [] => []
  | c :: r =>
      match r with
      | c1 :: c2 :: _ =>
          if (c =? LF) && (c1 =? LF) && (c2 =? LF) then limit_newlines r
          else c :: limit_newlines r
      | _ => c :: limit_newlines r
      end
  end.

(** The text continues with whitespace, possibly none, and then a
    punctuation character: [\s*[.,!?;:]] matches at its start. *)
Fixpoint before_punct (text : str) : bool :=
  match text with
  | [] => false
  | c :: r =>
      if is_punct c then true
      else if is_space c then before_punct r
      else false
  end.

(** [re.sub(r'\s+([.,!?;:])', r'\1', text)]: a whitespace run that ends at
    a punctuation character is dropped, that is, every whitespace
    character after which only whitespace precedes the next punctuation
    character. *)
Fixpoint unspace_punct (text : str) : str :=
  match text with
  | [] => []
  | c :: r =>
      if is_space c && before_punct r then unspace_punct r
      else c :: unspace_punct r
  end.

(** [text.lstrip()] *)
Fixpoint lstrip (text : str) : str :=
  match text with
  | [] => []
  | c :: r => if is_space c then lstrip r else text
  end.

(** [text.rstrip()] *)
Fixpoint rstrip (text : str) : str :=
  match text with
  | [] => []
  | c :: r =>
      match rstrip r with
      | [] => if is_space c then [] else [c]
      | r' => c :: r'
      end
  end.

(** [text.strip()] *)
Definition strip (text : str) : str := rstrip (lstrip text).

(** [clean_text] *)
Definition clean_text (text : str) : str :=
  match text with
  | [] => []
  | _ =>
      let text := collapse_spaces text in
      let text := limit_newlines text in
      let text := unspace_punct text in
      strip text
  end.

(** [preprocess_text] *)
Definition preprocess_text (text : str) : str :=
  clean_text (normalize_line_breaks text).

(** *** Shapes of texts *)

(** Some two adjacent characters of the text satisfy [p]. *)
Fixpoint has_pair (p : N -> N -> bool) (text : str) : bool :=
  match text with
  | [] => false
  | c :: r =>
      match r with
      | c' :: _ => p c c' || has_pair p r
      | [] => false
      end
  end.

Definition double_space (c c' : N) : bool := (c =? SPACE) && (c' =? SPACE).

Definition space_then_punct (c c' : N) : bool := is_space c && is_punct c'.

(** The text contains three line feeds in a row. *)
Fixpoint has_triple_newline (text : str) : bool :=
  match text with
  | [] => false
  | c :: r =>
      match r with
      | c1 :: c2 :: _ =>
          ((c =? LF) && (c1 =? LF) && (c2 =? LF)) || has_triple_newline r
      | _ => false
      end
  end.

(** The character [c] and the first character of [text] satisfy [p]. *)
Definition pair_at_head (p : N -> N -> bool) (c : N) (text : str) : bool :=
  match text with
  | c' :: _ => p c c'
  | [] => false
  end.

(** The text begins with two line feeds. *)
Definition starts_with_two_lf (text : str) : bool :=
  match text with
  | c1 :: c2 :: _ => (c1 =? LF) && (c2 =? LF)
  | _ => false
  end.

(** The text begins with a whitespace character. *)
Definition starts_with_space (text : str) : bool :=
  match text with
  | c :: _ => is_space c
  | [] => false
  end.

(** The text ends with a whitespace character. *)
Definition ends_with_space (text : str) : bool :=
  starts_with_space (rev text).

(** What is left of a text when its whitespace is taken out. *)
Definition ink (text : str) : str := filter (fun c => negb (is_space c)) text.

(** A text as the code leaves it: no two spaces in a row, no three line
    feeds in a row, no whitespace before a punctuation character, no
    whitespace at either end. *)
Definition tidy (text : str) : Prop :=
  has_pair double_space text = false
  /\ has_triple_newline text = false
  /\ has_pair space_then_punct text = false
  /\ starts_with_space text = false
  /\ ends_with_space text = false.

End TextProcessor.

(** ** main.py: the single-image endpoint

    The request handler [extract_text] as a function of the cache state.
    Its collaborators outside the cache are inputs: [validated] is what
    [validate_upload_file] returned or raised for the upload, [reply] is
    what the recognition backend ([extract_text_with_metadata]) returns or
    raises if it is asked, and the key derivation (a SHA-256 digest in
    hexadecimal) is a function of the file content.  An exception is the
    left injection; the message of a pydantic validation error is not
    modelled. *)

Module Handlers.

Import Config LRUCache.

(** The exceptions that leave the handler: the API's own exceptions with
    their HTTP status, and the error pydantic raises when [OCRResponse]
    rejects a field. *)
Inductive exn : Type :=
| OCRAPIException (status_code : Z) (message : TextProcessor.str)
| ValidationError.

(** What [validate_image_integrity] reads off the image. *)
Record image_metadata : Type := mk_image_metadata {
  width : Z;
  height : Z;
  format : option TextProcessor.str;
  mode : TextProcessor.str
}.

(** The dictionary the backend returns, as far as the handler reads it;
    [detected_languages] is absent when no text was found. *)
Record ocr_result : Type := mk_ocr_result {
  ocr_text : TextProcessor.str;
  ocr_confidence : Q;
  ocr_language : option TextProcessor.str;
  ocr_has_text : bool;
  ocr_detected_languages : option (list TextProcessor.str)
}.

(** [response_data['metadata']] *)
Record response_metadata : Type := mk_response_metadata {
  language : option TextProcessor.str;
  detected_languages : list TextProcessor.str;
  image_width : Z;
  image_height : Z;
  image_format : option TextProcessor.str;
  has_text : bool;
  cached : bool
}.

(** [response_data], the value stored in the cache *)
Record response_data : Type := mk_response_data {
  text : TextProcessor.str;
  confidence : Q;
  metadata : response_metadata
}.

(** [OCRResponse] *)
Record OCRResponse : Type := mk_OCRResponse {
  success : bool;
  response_text : TextProcessor.str;
  response_confidence : Q;
  processing_time_ms : Z;
  response_metadata_ : option response_metadata
}.

(** [{**metadata, 'cached': flag}] *)
Definition with_cached (flag : bool) (m : response_metadata)
  : response_metadata :=
  {| language := language m;
     detected_languages := detected_languages m;
     image_width := image_width m;
     image_height := image_height m;
     image_format := image_format m;
     has_text := has_text m;
     cached := flag |}.

(** The constructor of [OCRResponse]: the field [confidence] is declared
    with [ge=0.0, le=1.0]. *)
Definition make_response (t : TextProcessor.str) (c : Q) (ms : Z)
    (m : response_metadata) : exn + OCRResponse :=
  if Qle_bool 0 c && Qle_bool c 1 then
    inr {| success := true; response_text := t; response_confidence := c;
           processing_time_ms := ms; response_metadata_ := Some m |}
  else inl ValidationError.

(** The clock readings of one request: at its start, inside [cache.get],
    when the processing time is taken, and the two inside [cache.set]. *)
Record readings : Type := mk_readings {
  at_start : Z;
  at_get : Z;
  at_end : Z;
  at_set1 : Z;
  at_set2 : Z
}.

Section Endpoint.

(** [generate_cache_key] *)
Variable generate_cache_key : list Byte.byte -> string.

(** [int((time.time() - start_time) * 1000)] *)
Definition elapsed_ms (clk : readings) : Z := (at_end clk - at_start clk) * 1000.

(** The body of [extract_text] after a cache miss. *)
Definition on_miss (cfg : Config.t) (clk : readings) (cache_key : string)
    (image : image_metadata) (reply : exn + ocr_result)
    (cache : LRUCache.t response_data)
  : (exn + OCRResponse) * LRUCache.t response_data :=
  match reply with
  | inl e => (inl e, cache)
  | inr ocr =>
      let cleaned_text := TextProcessor.preprocess_text (ocr_text ocr) in
      let data :=
        {| text := cleaned_text;
           confidence := ocr_confidence ocr;
           metadata :=
             {| language := ocr_language ocr;
                detected_languages :=
                  match ocr_detected_languages ocr with
                  | Some l => l
                  | None => []
                  end;
                image_width := width image;
                image_height := height image;
                image_format := format image;
                has_text := ocr_has_text ocr;
                cached := false |} |} in
      let cache' :=
        set cfg cache_key data None (at_set1 clk) (at_set2 clk) cache in
      (make_response cleaned_text (ocr_confidence ocr) (elapsed_ms clk)
         (metadata data),
       cache')
  end.

(** [extract_text] *)
Definition extract_text (cfg : Config.t) (clk : readings)
    (validated : exn + (list Byte.byte * image_metadata))
    (reply : exn + ocr_result) (cache : LRUCache.t response_data)
  : (exn + OCRResponse) * LRUCache.t response_data :=
  match validated with
  | inl e => (inl e, cache)
  | inr (file_content, image) =>
      let cache_key := generate_cache_key file_content in
      let (cached_result, cache1) := get cfg cache_key (at_get clk) cache in
      match cached_result with
      | Some hit =>
          (make_response (text hit) (confidence hit) (elapsed_ms clk)
             (with_cached true (metadata hit)),
           cache1)
      | None => on_miss cfg clk cache_key image reply cache1
      end
  end.

(** Two responses carry the same result: they agree on everything but
    the processing time and the [cached] flag. *)
Definition same_result (a b : OCRResponse) : Prop :=
  success a = success b
  /\ response_text a = response_text b
  /\ response_confidence a = response_confidence b
  /\ option_map (with_cached true) (response_metadata_ a)
     = option_map (with_cached true) (response_metadata_ b).

(** The response says it was served from the cache. *)
Definition served_from_cache (r : OCRResponse) : Prop :=
  option_map cached (response_metadata_ r) = Some true.

End Endpoint.

End Handlers.

(** ** utils/validators.py and the upload settings of config.py

    An exception is represented by its class, the left injection of the
    result; the message is not modelled.  [str.lower] and the image check
    done with the imaging library are parameters. *)

Module Validators.

Import TextProcessor Handlers.

(** The exception classes of utils/error_handlers.py the validators
    raise. *)
Inductive error_class : Type :=
| InvalidFileFormatException
| FileSizeExceededException
| InvalidFileException.

(** The [status_code] each class passes to [OCRAPIException]. *)
Definition status_code (e : error_class) : Z :=
  match e with
  | InvalidFileFormatException => 415
  | FileSizeExceededException => 413
  | InvalidFileException => 400
  end.

(** A string literal as a sequence of code points. *)
Definition lit (s : string) : str :=
  map Ascii.N_of_ascii (String.list_ascii_of_string s).

(** [Config.ALLOWED_EXTENSIONS] *)
Definition ALLOWED_EXTENSIONS : list str :=
  [lit "jpg"; lit "jpeg"; lit "png"; lit "gif"; lit "webp"; lit "bmp"].

(** [Config.ALLOWED_MIME_TYPES] *)
Definition ALLOWED_MIME_TYPES : list str :=
  [lit "image/jpeg"; lit "image/jpg"; lit "image/png"; lit "image/gif";
   lit "image/webp"; lit "image/bmp"].

(** [Config.FILE_SIGNATURES], in the order of the dictionary *)
Definition FILE_SIGNATURES : list (list Byte.byte * str) :=
  [ ([Byte.xff; Byte.xd8; Byte.xff], lit "jpg");
    ([Byte.x89; Byte.x50; Byte.x4e; Byte.x47; Byte.x0d; Byte.x0a; Byte.x1a; Byte.x0a],
     lit "png");
    ([Byte.x47; Byte.x49; Byte.x46; Byte.x38; Byte.x37; Byte.x61],
     lit "gif");
    ([Byte.x47; Byte.x49; Byte.x46; Byte.x38; Byte.x39; Byte.x61],
     lit "gif");
    ([Byte.x52; Byte.x49; Byte.x46; Byte.x46], lit "webp");
    ([Byte.x42; Byte.x4d], lit "bmp") ].

(** [Config.MAX_FILE_SIZE_BYTES] for a given [MAX_FILE_SIZE_MB] *)
Definition MAX_FILE_SIZE_BYTES (MAX_FILE_SIZE_MB : Z) : Z :=
  (MAX_FILE_SIZE_MB * 1024 * 1024)%Z.

Definition str_eqb (a b : str) : bool :=
  if list_eq_dec N.eq_dec a b then true else false.

(** [x in collection] for a set of strings *)
Definition str_in (x : str) (l : list str) : bool := existsb (str_eqb x) l.

(** [content.startswith(signature)] *)
Fixpoint startswith (content signature : list Byte.byte) : bool :=
  match signature, content with
  | [], _ => true
  | _ :: _, [] => false
  | b :: sig', c :: content' => Byte.eqb c b && startswith content' sig'
  end.

(** [validate_file_signature]: the format of the first signature of the
    table that the content starts with *)
Fixpoint first_signature (table : list (list Byte.byte * str))
    (file_content : list Byte.byte) : error_class + str :=
  match table with
  | [] => inl InvalidFileFormatException
  | (signature, format_type) :: rest =>
      if startswith file_content signature then inr format_type
      else first_signature rest file_content
  end.

Definition validate_file_signature (file_content : list Byte.byte)
  : error_class + str :=
  first_signature FILE_SIGNATURES file_content.

(** [text.split('.')[-1]]: what follows the last full stop, or the whole
    text when it has none *)
Fixpoint last_segment (text : str) : str :=
  match text with
  | [] => []
  | c :: r =>
      if existsb (N.eqb 46) r then last_segment r
      else if (c =? 46)%N then r
      else text
  end.

(** [validate_mime_type]; the content type of an upload may be [None] *)
Definition validate_mime_type (content_type : option str)
  : error_class + unit :=
  match content_type with
  | Some t =>
      if str_eqb t (lit "application/octet-stream") then inr tt
      else if str_in t ALLOWED_MIME_TYPES then inr tt
      else inl InvalidFileFormatException
  | None => inl InvalidFileFormatException
  end.

(** [validate_file_size] *)
Definition validate_file_size (MAX_FILE_SIZE_MB : Z) (file_size : Z)
  : error_class + unit :=
  if (file_size =? 0)%Z then inl InvalidFileException
  else if (MAX_FILE_SIZE_BYTES MAX_FILE_SIZE_MB <? file_size)%Z
       then inl FileSizeExceededException
       else inr tt.

(** What [validate_upload_file] reads of an [UploadFile]. *)
Record upload : Type := mk_upload {
  filename : option str;
  content_type : option str;
  content : list Byte.byte
}.

(** Sequencing of checks: the first exception raised ends the function. *)
Definition bind {A B : Type} (x : error_class + A)
    (f : A -> error_class + B) : error_class + B :=
  match x with
  | inl e => inl e
  | inr a => f a
  end.

Infix ">>=" := bind (at level 58, left associativity).

(** The dictionary [detect_corruption] returns. *)
Record corruption_check : Type := mk_corruption_check {
  is_corrupted : bool;
  issues : list str;
  can_process : bool
}.

Section Upload.

(** [str.lower] *)
Variable lower : str -> str.

(** [detect_corruption] of utils/corruption_detector.py, which decodes
    the image with the imaging library; [None] when it raises. *)
Variable detect_corruption : list Byte.byte -> option corruption_check.

(** [attempt_repair], which re-encodes the image and returns the content
    it was given when that fails; it never raises. *)
Variable attempt_repair : list Byte.byte -> list Byte.byte.

(** [Image.open] and the reading of width, height, format and mode;
    [None] when it raises. *)
Variable open_image : list Byte.byte -> option image_metadata.

Variable MAX_FILE_SIZE_MB : Z.

(** [validate_image_integrity]: the metadata and the possibly repaired
    content.  Every exception raised inside, whatever its class, leaves
    the function as an [InvalidFileException]. *)
Definition validate_image_integrity (file_content : list Byte.byte)
  : error_class + (image_metadata * list Byte.byte) :=
  match detect_corruption file_content with
  | None => inl InvalidFileException
  | Some check =>
      let checked :=
        if is_corrupted check then
          let repaired_content := attempt_repair file_content in
          match detect_corruption repaired_content with
          | None => inl InvalidFileException
          | Some check' =>
              if is_corrupted check' then inl InvalidFileException
              else inr repaired_content
          end
        else inr file_content in
      checked >>= fun file_content =>
      match open_image file_content with
      | None => inl InvalidFileException
      | Some metadata => inr (metadata, file_content)
      end
  end.

(** [validate_file_extension]; the file name of an upload may be [None] *)
Definition validate_file_extension (name : option str)
  : error_class + str :=
  match name with
  | None | Some [] => inl InvalidFileFormatException
  | Some n =>
      let extension := last_segment (lower n) in
      if str_in extension ALLOWED_EXTENSIONS then inr extension
      else inl InvalidFileFormatException
  end.

(** [validate_upload_file] *)
Definition validate_upload_file (file : upload)
  : error_class + (list Byte.byte * image_metadata) :=
  validate_file_extension (filename file) >>= fun _ =>
  validate_mime_type (content_type file) >>= fun _ =>
  let file_content := content file in
  validate_file_size MAX_FILE_SIZE_MB (Z.of_nat (length file_content))
  >>= fun _ =>
  validate_file_signature file_content >>= fun _ =>
  validate_image_integrity file_content >>= fun r =>
  inr (snd r, fst r).

End Upload.

(** The lower-casing of the letters A to Z, which is what [str.lower] does
    to a text of ASCII characters. *)
Definition ascii_lower (t : str) : str :=
  map (fun c => if ((65 <=? c) && (c <=? 90))%N then (c + 32)%N else c) t.

End Validators.

(** ** Sample requests and uploads *)

Module Samples.

Import Config LRUCache Scenario TextProcessor Handlers Validators.

(** The warm-up followed by a [reset_stats]. *)
Definition warm_then_reset : LRUCache.t string := reset_stats warm.

(** Two more calls on the warm cache. *)
Definition two_more : list (op string) :=
  [OpSet "c"%string "Z"%string None 3 3; OpGet "b"%string 4].

(** A stand-in for the digest: the content read as a string. *)
Definition sample_key (file_content : list Byte.byte) : string :=
  String.string_of_list_byte file_content.

(** The first bytes of a bitmap file. *)
Definition bitmap : list Byte.byte := [Byte.x42; Byte.x4d; Byte.x00].

Definition small_image : image_metadata :=
  {| width := 4; height := 4; format := Some (lit "BMP"); mode := lit "RGB" |}.

Definition large_image : image_metadata :=
  {| width := 40; height := 40; format := Some (lit "BMP");
     mode := lit "RGB" |}.

(** The backend found the text [Hi ,  there] with confidence 0.95. *)
Definition found_text : ocr_result :=
  {| ocr_text := lit "Hi ,  there";
     ocr_confidence := 95 # 100;
     ocr_language := Some (lit "en");
     ocr_has_text := true;
     ocr_detected_languages := Some [lit "en"] |}.

(** A request at instant 10 and one at instant 20. *)
Definition at_ten : readings :=
  {| at_start := 10; at_get := 10; at_end := 11;
     at_set1 := 11; at_set2 := 11 |}.

Definition at_twenty : readings :=
  {| at_start := 20; at_get := 20; at_end := 20;
     at_set1 := 20; at_set2 := 20 |}.

(** An image check that flags nothing and reads a fixed metadata. *)
Definition passes_all (c : list Byte.byte) : option corruption_check :=
  Some {| is_corrupted := false; issues := []; can_process := true |}.

Definition no_repair (c : list Byte.byte) : list Byte.byte := c.

Definition reads_small (c : list Byte.byte) : option image_metadata :=
  Some small_image.

(** The same bitmap uploaded under two names and content types, and an
    empty upload. *)
Definition upload_png_name : upload :=
  {| filename := Some (lit "Scan.PNG");
     content_type := Some (lit "image/png");
     content := bitmap |}.

Definition upload_bare_name : upload :=
  {| filename := Some (lit "bmp");
     content_type := Some (lit "application/octet-stream");
     content := bitmap |}.

Definition upload_empty : upload :=
  {| filename := Some (lit "a.png");
     content_type := Some (lit "image/png");
     content := [] |}.

End Samples.

(** * Properties *)

(** ** Facts about the ordered dictionary *)

Module OrderedDictFacts.

Import OrderedDict.

Section Facts.
Context {A : Type}.
Implicit Types (d : OrderedDict.t A) (k key : string) (v : A).

Lemma getitem_In key d v : getitem key d = Some v -> In (key, v) d.
Proof.
  induction d as [|[k w] r IH]; simpl; [discriminate|].
  destruct (String.eqb_spec key k) as [->|Hne]; intros H.
  - injection H as ->. now left.
  - right. auto.
Qed.

Lemma getitem_None key d : getitem key d = None <-> ~ In key (keys d).
Proof.
  induction d as [|[k w] r IH]; simpl.
  - tauto.
  - destruct (String.eqb_spec key k) as [->|Hne].
    + split; [discriminate | intros H; exfalso; apply H; now left].
    + rewrite IH. intuition congruence.
Qed.

Lemma contains_true key d : contains key d = true <-> In key (keys d).
Proof.
  unfold contains. destruct (getitem key d) eqn:E.
  - split; [intros _|reflexivity].
    apply getitem_In in E. apply (in_map fst) in E. exact E.
  - apply getitem_None in E. split; [discriminate | tauto].
Qed.

Lemma contains_false key d : contains key d = false <-> ~ In key (keys d).
Proof.
  rewrite <- contains_true. destruct (contains key d); intuition congruence.
Qed.

Lemma getitem_wf_In key d v : wf d -> In (key, v) d -> getitem key d = Some v.
Proof.
  unfold wf. induction d as [|[k w] r IH]; simpl; [tauto|].
  intros Hnd [H|H].
  - injection H as -> ->. now rewrite String.eqb_refl.
  - inversion Hnd as [|? ? Hk Hr]; subst.
    destruct (String.eqb_spec key k) as [->|Hne]; [|auto].
    exfalso. apply Hk. apply (in_map fst) in H. exact H.
Qed.

Lemma delitem_filter key d :
  delitem key d = filter (fun kv => negb (String.eqb key (fst kv))) d.
Proof.
  induction d as [|[k w] r IH]; simpl; [reflexivity|].
  destruct (String.eqb key k); simpl; now rewrite IH.
Qed.

Lemma In_delitem key d k v :
  In (k, v) (delitem key d) <-> k <> key /\ In (k, v) d.
Proof.
  rewrite delitem_filter, filter_In. simpl.
  rewrite negb_true_iff, String.eqb_neq. intuition congruence.
Qed.

Lemma In_keys_delitem key d k :
  In k (keys (delitem key d)) <-> k <> key /\ In k (keys d).
Proof.
  unfold keys. rewrite !in_map_iff. split.
  - intros [[k' v] [<- H]]. apply In_delitem in H. simpl.
    split; [tauto|]. exists (k', v). tauto.
  - intros [Hne [[k' v] [<- H]]]. exists (k', v). split; [reflexivity|].
    apply In_delitem. tauto.
Qed.

Lemma delitem_absent key d : ~ In key (keys d) -> delitem key d = d.
Proof.
  induction d as [|[k w] r IH]; simpl; [reflexivity|]. intros H.
  destruct (String.eqb_spec key k) as [->|Hne]; [tauto|].
  f_equal. apply IH. tauto.
Qed.

Lemma delitem_app key d d' :
  delitem key (d ++ d') = delitem key d ++ delitem key d'.
Proof. rewrite !delitem_filter. apply filter_app. Qed.

Lemma delitem_comm k k' d :
  delitem k (delitem k' d) = delitem k' (delitem k d).
Proof.
  induction d as [|[k0 w] r IH]; simpl; [reflexivity|].
  destruct (String.eqb k' k0) eqn:E1, (String.eqb k k0) eqn:E2; simpl;
    rewrite ?E1, ?E2, IH; reflexivity.
Qed.

Lemma length_delitem key d : (length (delitem key d) <= length d)%nat.
Proof. rewrite delitem_filter. apply filter_length_le. Qed.

Lemma length_delitem_present key d :
  In key (keys d) -> (length (delitem key d) < length d)%nat.
Proof.
  induction d as [|[k w] r IH]; simpl; [tauto|].
  destruct (String.eqb_spec key k) as [->|Hne]; intros H.
  - pose proof (length_delitem k r). lia.
  - simpl. apply -> Nat.succ_lt_mono. apply IH. intuition congruence.
Qed.

Lemma length_delitem_wf key d :
  wf d -> In key (keys d) -> S (length (delitem key d)) = length d.
Proof.
  unfold wf. induction d as [|[k w] r IH]; simpl; [tauto|].
  intros Hnd H. inversion Hnd as [|? ? Hk Hr]; subst.
  destruct (String.eqb_spec key k) as [->|Hne].
  - now rewrite delitem_absent.
  - simpl. f_equal. apply IH; intuition congruence.
Qed.

Lemma getitem_delitem_same key d : getitem key (delitem key d) = None.
Proof. apply getitem_None. rewrite In_keys_delitem. tauto. Qed.

Lemma getitem_delitem_other key d k :
  k <> key -> getitem k (delitem key d) = getitem k d.
Proof.
  intros Hne. induction d as [|[k0 w] r IH]; simpl; [reflexivity|].
  destruct (String.eqb_spec key k0) as [->|Hne0].
  - rewrite IH. destruct (String.eqb_spec k k0); [contradiction|reflexivity].
  - simpl. now rewrite IH.
Qed.

Lemma getitem_app key d d' :
  getitem key (d ++ d') =
  match getitem key d with Some v => Some v | None => getitem key d' end.
Proof.
  induction d as [|[k w] r IH]; simpl; [reflexivity|].
  destruct (String.eqb key k); [reflexivity | exact IH].
Qed.

Lemma delitem_setitem key v d : delitem key (setitem key v d) = delitem key d.
Proof.
  induction d as [|[k w] r IH]; simpl.
  - now rewrite String.eqb_refl.
  - destruct (String.eqb key k) eqn:E; simpl; rewrite E; [reflexivity|].
    now rewrite IH.
Qed.

Lemma getitem_setitem_same key v d : getitem key (setitem key v d) = Some v.
Proof.
  induction d as [|[k w] r IH]; simpl.
  - now rewrite String.eqb_refl.
  - destruct (String.eqb key k) eqn:E; simpl; rewrite E; [reflexivity|].
    exact IH.
Qed.

(** Assigning to a key and moving it to the end comes to deleting the key
    and appending the new pair. *)
Lemma move_to_end_setitem key v d :
  move_to_end key (setitem key v d) = delitem key d ++ [(key, v)].
Proof.
  unfold move_to_end. now rewrite getitem_setitem_same, delitem_setitem.
Qed.

Lemma wf_delitem key d : wf d -> wf (delitem key d).
Proof.
  unfold wf, keys. rewrite delitem_filter. revert key.
  induction d as [|[k w] r IH]; simpl; intros key Hnd; [constructor|].
  inversion Hnd as [|? ? Hk Hr]; subst.
  destruct (String.eqb key k); simpl; [auto|].
  constructor; [|auto].
  intros H. apply Hk. apply in_map_iff in H as [[k' v'] [<- H]].
  apply filter_In in H as [H _]. apply (in_map fst) in H. exact H.
Qed.

Lemma wf_snoc key v d : wf d -> ~ In key (keys d) -> wf (d ++ [(key, v)]).
Proof.
  unfold wf, keys. intros Hnd Hk. rewrite map_app. simpl.
  apply NoDup_app; [exact Hnd | repeat constructor; simpl; tauto|].
  intros a Ha [<-|[]]. exact (Hk Ha).
Qed.

Lemma wf_tail kv d : wf (kv :: d) -> wf d.
Proof. unfold wf. simpl. intros H. now inversion H. Qed.

Lemma wf_move_to_end key d : wf d -> wf (move_to_end key d).
Proof.
  intros H. unfold move_to_end. destruct (getitem key d); [|exact H].
  apply wf_snoc; [now apply wf_delitem|]. rewrite In_keys_delitem. tauto.
Qed.

End Facts.

End OrderedDictFacts.

(** ** Facts about the cache operations *)

Module LRUCacheFacts.

Import Config OrderedDict OrderedDictFacts LRUCache.

Section Facts.
Context {V : Type}.
Implicit Types (s : LRUCache.t V) (e : entry V) (key k : string)
  (d : OrderedDict.t (entry V)).

(** Case analysis on the method a call invokes. *)
Ltac call_cases o :=
  destruct o as [key now|key v ttl t1 t2|key| |clk|clk|now| ]; simpl.

Lemma set_enabled cfg key (v : V) ttl t1 t2 s :
  CACHE_ENABLED cfg = true ->
  set cfg key v ttl t1 t2 s =
  {| _cache := delitem key (_cache (before_insert cfg key s))
               ++ [(key, {| value := v;
                            expires_at := t1 + effective_ttl cfg ttl;
                            created_at := t2 |})];
     _stats := incr_sets (_stats (before_insert cfg key s)) |}.
Proof.
  intros En. unfold set. rewrite En. simpl.
  now rewrite move_to_end_setitem.
Qed.

Lemma before_insert_present cfg key s :
  In key (keys (_cache s)) -> before_insert cfg key s = s.
Proof.
  intros H. unfold before_insert.
  apply contains_true in H. now rewrite H.
Qed.

Lemma before_insert_room cfg key s :
  len (_cache s) < MAX_CACHE_SIZE cfg -> before_insert cfg key s = s.
Proof.
  intros H. unfold before_insert.
  apply Z.leb_gt in H. rewrite H. now rewrite andb_false_r.
Qed.

Lemma before_insert_full cfg key s k0 e0 rest :
  ~ In key (keys (_cache s)) ->
  MAX_CACHE_SIZE cfg <= len (_cache s) ->
  _cache s = (k0, e0) :: rest ->
  before_insert cfg key s =
  {| _cache := rest; _stats := incr_evictions (_stats s) |}.
Proof.
  intros Hk Hfull Hc. unfold before_insert.
  apply contains_false in Hk. apply Z.leb_le in Hfull.
  rewrite Hk, Hfull. simpl. unfold _evict_lru. now rewrite Hc.
Qed.

Lemma set_getitem cfg key (v : V) ttl t1 t2 s :
  CACHE_ENABLED cfg = true ->
  getitem key (_cache (set cfg key v ttl t1 t2 s)) =
  Some {| value := v; expires_at := t1 + effective_ttl cfg ttl;
          created_at := t2 |}.
Proof.
  intros En. rewrite set_enabled by exact En. simpl.
  rewrite getitem_app, getitem_delitem_same. simpl.
  now rewrite String.eqb_refl.
Qed.

Lemma getitem_snoc_other key k e d :
  k <> key -> getitem k (delitem key d ++ [(key, e)]) = getitem k d.
Proof.
  intros Hne. rewrite getitem_app, getitem_delitem_other by exact Hne.
  destruct (getitem k d); [reflexivity|]. simpl.
  destruct (String.eqb_spec k key); [contradiction|reflexivity].
Qed.

Lemma getitem_snoc_same key e d :
  getitem key (delitem key d ++ [(key, e)]) = Some e.
Proof.
  rewrite getitem_app, getitem_delitem_same. simpl.
  now rewrite String.eqb_refl.
Qed.

Lemma get_hit cfg key now s e :
  CACHE_ENABLED cfg = true ->
  getitem key (_cache s) = Some e ->
  now <= expires_at e ->
  get cfg key now s =
  (Some (value e),
   {| _cache := delitem key (_cache s) ++ [(key, e)];
      _stats := incr_hits (_stats s) |}).
Proof.
  intros En He Hnow. unfold get, _is_expired, move_to_end.
  rewrite En, He. simpl.
  destruct (Z.ltb_spec (expires_at e) now); [lia|reflexivity].
Qed.

Lemma get_expired cfg key now s e :
  CACHE_ENABLED cfg = true ->
  getitem key (_cache s) = Some e ->
  expires_at e < now ->
  get cfg key now s =
  (None, {| _cache := delitem key (_cache s);
            _stats := incr_misses (_stats s) |}).
Proof.
  intros En He Hnow. unfold get, _is_expired.
  rewrite En, He. simpl.
  destruct (Z.ltb_spec (expires_at e) now); [reflexivity|lia].
Qed.

Lemma get_absent cfg key now s :
  CACHE_ENABLED cfg = true ->
  getitem key (_cache s) = None ->
  get cfg key now s =
  (None, {| _cache := _cache s; _stats := incr_misses (_stats s) |}).
Proof. intros En He. unfold get. now rewrite En, He. Qed.

Lemma In_keys_delete_all ks d k :
  In k (keys (delete_all ks d)) <-> In k (keys d) /\ ~ In k ks.
Proof.
  unfold delete_all. revert d.
  induction ks as [|k0 ks IH]; simpl; intros d; [tauto|].
  rewrite IH, In_keys_delitem. intuition congruence.
Qed.

Lemma length_delete_all ks d : (length (delete_all ks d) <= length d)%nat.
Proof.
  unfold delete_all. revert d.
  induction ks as [|k0 ks IH]; simpl; intros d; [lia|].
  specialize (IH (delitem k0 d)). pose proof (length_delitem k0 d). lia.
Qed.

Lemma wf_delete_all ks d : wf d -> wf (delete_all ks d).
Proof.
  unfold delete_all. revert d.
  induction ks as [|k0 ks IH]; simpl; intros d H; [exact H|].
  apply IH. now apply wf_delitem.
Qed.

Lemma getitem_reads cfg key nows s e :
  CACHE_ENABLED cfg = true ->
  getitem key (_cache s) = Some e ->
  Forall (fun now => now <= expires_at e) nows ->
  getitem key (_cache (run cfg (reads key nows) s)) = Some e.
Proof.
  intros En He Hall. revert s He.
  induction Hall as [|now nows Hnow _ IH]; intros s He; [exact He|].
  simpl. apply IH. rewrite (get_hit cfg key now s e En He Hnow). simpl.
  apply getitem_snoc_same.
Qed.

Lemma key_in_true ks k : key_in ks k = true <-> In k ks.
Proof.
  unfold key_in. rewrite existsb_exists. split.
  - intros [x [Hx E]]. apply String.eqb_eq in E. now subst.
  - intros H. exists k. split; [exact H | apply String.eqb_refl].
Qed.

Lemma delete_all_filter ks d :
  delete_all ks d = filter (fun kv => negb (key_in ks (fst kv))) d.
Proof.
  unfold delete_all. revert d.
  induction ks as [|k0 ks IH]; intros d; simpl.
  - induction d as [|kv r IHr]; simpl; [reflexivity | now rewrite <- IHr].
  - rewrite IH, delitem_filter.
    induction d as [|[k w] r IHr]; simpl; [reflexivity|].
    rewrite (String.eqb_sym k k0).
    destruct (String.eqb k0 k); simpl; [exact IHr|].
    destruct (key_in ks k); simpl; [exact IHr | now rewrite IHr].
Qed.

Lemma wf_functional d k e e' :
  wf d -> In (k, e) d -> In (k, e') d -> e = e'.
Proof.
  intros Hwf H H'.
  apply (getitem_wf_In _ _ _ Hwf) in H.
  apply (getitem_wf_In _ _ _ Hwf) in H'. congruence.
Qed.

(** Deleting the keys of the pairs that satisfy [p] keeps the others. *)
Lemma delete_all_keys_filter (p : string * entry V -> bool) d :
  wf d ->
  delete_all (keys (filter p d)) d = filter (fun kv => negb (p kv)) d.
Proof.
  intros Hwf. rewrite delete_all_filter. apply filter_ext_in.
  intros [k e] Hin. f_equal. simpl.
  destruct (p (k, e)) eqn:Hp.
  - apply key_in_true. apply in_map_iff. exists (k, e).
    split; [reflexivity|]. apply filter_In. tauto.
  - destruct (key_in (keys (filter p d)) k) eqn:Hk; [|reflexivity].
    apply key_in_true in Hk. apply in_map_iff in Hk as [[k' e'] [Hk Hf]].
    simpl in Hk. subst k'. apply filter_In in Hf as [Hin' Hp'].
    rewrite (wf_functional d k e e' Hwf Hin Hin') in Hp. congruence.
Qed.

(** When no expiry falls between the first and the last clock reading of
    a scan, the scan selects the pairs whose expiry precedes the scan. *)
Lemma expired_keys_from_past clk lo hi i d :
  (forall j, lo <= clk j <= hi) ->
  Forall (fun kv => expires_at (snd kv) < lo \/ hi <= expires_at (snd kv)) d ->
  expired_keys_from clk i d = keys (filter (past lo) d).
Proof.
  intros Hclk Hall. revert i.
  induction Hall as [|[k e] r Hkv _ IH]; intros i; simpl; [reflexivity|].
  unfold past at 1, _is_expired. simpl in *. specialize (Hclk i).
  destruct (Z.ltb_spec (expires_at e) (clk i)),
           (Z.ltb_spec (expires_at e) lo); try lia; simpl; now rewrite IH.
Qed.

Lemma filter_partition_length {B : Type} (p : B -> bool) (l : list B) :
  (length (filter p l) + length (filter (fun x => negb (p x)) l)
   = length l)%nat.
Proof.
  induction l as [|x l IH]; simpl; [reflexivity|].
  destruct (p x); simpl; lia.
Qed.

Lemma run_app cfg (ops ops' : list (op V)) s :
  run cfg (ops ++ ops') s = run cfg ops' (run cfg ops s).
Proof. unfold run. apply fold_left_app. Qed.

Lemma length_move_to_end key d :
  (length (move_to_end key d) <= length d)%nat.
Proof.
  unfold move_to_end. destruct (getitem key d) eqn:E; [|lia].
  rewrite length_app. simpl.
  assert (Hin : In key (keys d)).
  { apply contains_true. unfold contains. now rewrite E. }
  pose proof (length_delitem_present key d Hin). lia.
Qed.

(** The store in which [set] inserts an absent key has room for it. *)
Lemma before_insert_has_room cfg key s :
  len (_cache s) <= Z.max (MAX_CACHE_SIZE cfg) 1 ->
  ~ In key (keys (_cache s)) ->
  len (_cache (before_insert cfg key s)) < Z.max (MAX_CACHE_SIZE cfg) 1.
Proof.
  intros Hb Hk. unfold before_insert.
  apply contains_false in Hk. rewrite Hk. simpl.
  destruct (Z.leb_spec (MAX_CACHE_SIZE cfg) (len (_cache s))) as [Hfull|Hroom].
  - unfold _evict_lru, len in *.
    destruct (_cache s) as [|kv rest] eqn:E;
      cbn [popitem_first _cache length] in *; rewrite ?E;
      cbn [length]; lia.
  - lia.
Qed.

Lemma set_capacity cfg key (v : V) ttl t1 t2 s :
  len (_cache s) <= Z.max (MAX_CACHE_SIZE cfg) 1 ->
  len (_cache (set cfg key v ttl t1 t2 s)) <= Z.max (MAX_CACHE_SIZE cfg) 1.
Proof.
  intros Hb. destruct (CACHE_ENABLED cfg) eqn:En.
  - rewrite set_enabled by exact En. simpl.
    unfold len. rewrite length_app. simpl.
    destruct (in_dec string_dec key (keys (_cache s))) as [Hin|Hout].
    + rewrite before_insert_present by exact Hin.
      pose proof (length_delitem_present key (_cache s) Hin).
      unfold len in Hb. lia.
    + pose proof (before_insert_has_room cfg key s Hb Hout) as Hr.
      pose proof (length_delitem key (_cache (before_insert cfg key s))).
      unfold len in Hr. lia.
  - unfold set. rewrite En. exact Hb.
Qed.

Lemma step_capacity cfg s (o : op V) :
  len (_cache s) <= Z.max (MAX_CACHE_SIZE cfg) 1 ->
  len (_cache (step cfg s o)) <= Z.max (MAX_CACHE_SIZE cfg) 1.
Proof.
  intros Hb. call_cases o; try exact Hb.
  - unfold get. destruct (CACHE_ENABLED cfg); simpl; [|exact Hb].
    destruct (getitem key (_cache s)) as [e|]; [|exact Hb].
    destruct (_is_expired now e); simpl; unfold len in *.
    + pose proof (length_delitem key (_cache s)). lia.
    + pose proof (length_move_to_end key (_cache s)). lia.
  - now apply set_capacity.
  - unfold delete. destruct (contains key (_cache s)); [|exact Hb].
    simpl. unfold len in *. pose proof (length_delitem key (_cache s)). lia.
  - unfold len. simpl. lia.
  - unfold len in *.
    pose proof (length_delete_all (expired_keys clk (_cache s)) (_cache s)).
    lia.
  - unfold len in *.
    pose proof (length_delete_all (expired_keys clk (_cache s)) (_cache s)).
    lia.
Qed.

Lemma run_capacity cfg (ops : list (op V)) s :
  len (_cache s) <= Z.max (MAX_CACHE_SIZE cfg) 1 ->
  len (_cache (run cfg ops s)) <= Z.max (MAX_CACHE_SIZE cfg) 1.
Proof.
  revert s. induction ops as [|o ops IH]; intros s Hb; [exact Hb|].
  simpl. apply IH. now apply step_capacity.
Qed.

(** The bound the code keeps.  After every history of calls on a new
    cache the store holds at most [max(MAX_CACHE_SIZE, 1)] entries, so at
    most [MAX_CACHE_SIZE] whenever that is at least one; and the store in
    which a [set] then inserts an absent key, after its eviction step,
    holds strictly fewer. *)
Lemma capacity_bound cfg (ops : list (op V)) :
  let s := run cfg ops init in
  len (_cache s) <= Z.max (MAX_CACHE_SIZE cfg) 1
  /\ (1 <= MAX_CACHE_SIZE cfg -> len (_cache s) <= MAX_CACHE_SIZE cfg)
  /\ (forall key,
        ~ In key (keys (_cache s)) ->
        len (_cache (before_insert cfg key s))
          < Z.max (MAX_CACHE_SIZE cfg) 1).
Proof.
  assert (Hb : len (_cache (run cfg ops init))
               <= Z.max (MAX_CACHE_SIZE cfg) 1).
  { apply run_capacity. unfold len. simpl. lia. }
  simpl. split; [exact Hb|]. split; [lia|].
  intros key Hk. now apply before_insert_has_room.
Qed.

Lemma In_delete_all ks d kv : In kv (delete_all ks d) -> In kv d.
Proof. rewrite delete_all_filter, filter_In. tauto. Qed.

Lemma In_delitem_sub key d kv : In kv (delitem key d) -> In kv d.
Proof. rewrite delitem_filter, filter_In. tauto. Qed.

Lemma In_before_insert cfg key s kv :
  In kv (_cache (before_insert cfg key s)) -> In kv (_cache s).
Proof.
  unfold before_insert, _evict_lru.
  destruct (negb (contains key (_cache s))
            && (MAX_CACHE_SIZE cfg <=? len (_cache s))); [|tauto].
  destruct (_cache s) as [|kv0 rest] eqn:E; simpl; rewrite ?E; simpl; tauto.
Qed.

(** Every pair stored after a call was stored before it or is the pair a
    [set] wrote. *)
Lemma In_step cfg s (o : op V) kv :
  In kv (_cache (step cfg s o)) ->
  In kv (_cache s)
  \/ exists key v ttl t1 t2,
       o = OpSet key v ttl t1 t2 /\ kv = (key, new_entry cfg v ttl t1 t2).
Proof.
  call_cases o;
    try tauto.
  - unfold get. destruct (CACHE_ENABLED cfg); simpl; [|tauto].
    destruct (getitem key (_cache s)) as [e|] eqn:E; [|tauto].
    destruct (_is_expired now e); simpl.
    + intros H. left. now apply In_delitem_sub in H.
    + unfold move_to_end. rewrite E. rewrite in_app_iff. simpl.
      intros [H|[<-|[]]]; left;
        [now apply In_delitem_sub in H | now apply getitem_In].
  - destruct (CACHE_ENABLED cfg) eqn:En.
    + rewrite set_enabled by exact En. simpl. rewrite in_app_iff. simpl.
      intros [H|[<-|[]]].
      * left. apply In_delitem_sub in H. now apply In_before_insert in H.
      * right. now exists key, v, ttl, t1, t2.
    + unfold set. rewrite En. simpl. tauto.
  - unfold delete. destruct (contains key (_cache s)); simpl; [|tauto].
    intros H. left. now apply In_delitem_sub in H.
  - intros H. left. now apply In_delete_all in H.
  - intros H. left. now apply In_delete_all in H.
Qed.

Lemma run_timestamps cfg (ops : list (op V)) s :
  Forall (lifetime_covers_delay cfg) ops ->
  Forall timestamps_ordered (_cache s) ->
  Forall timestamps_ordered (_cache (run cfg ops s)).
Proof.
  intros Hops. revert s.
  induction Hops as [|o ops Ho _ IH]; intros s Hs; [exact Hs|].
  simpl. apply IH. apply Forall_forall. intros kv Hin.
  apply In_step in Hin as [Hin|(key & v & ttl & t1 & t2 & -> & ->)].
  - revert kv Hin. now apply Forall_forall.
  - unfold timestamps_ordered. simpl in *. lia.
Qed.

(** C6. In the state after any history in which every [set] was given a
    lifetime (the explicit one, zero included, or else the default) at
    least as long as the time between its two clock readings, every
    stored entry has [created_at <= expires_at]. *)
Theorem entry_timestamps_ordered cfg (ops : list (op V)) :
  Forall (lifetime_covers_delay cfg) ops ->
  Forall timestamps_ordered (_cache (run cfg ops init)).
Proof. intros Hops. apply run_timestamps; [exact Hops | constructor]. Qed.

(** Rounding moves a number by at most one half. *)
Lemma round_half_even_near x :
  (inject_Z (Float.round_half_even x) - x <= 1 # 2)%Q
  /\ (x - inject_Z (Float.round_half_even x) <= 1 # 2)%Q.
Proof.
  unfold Float.round_half_even.
  pose proof (Qfloor_le x) as Hlo. pose proof (Qlt_floor x) as Hhi.
  rewrite inject_Z_plus in Hhi. change (inject_Z 1) with 1%Q in Hhi.
  destruct (Qcompare (x - inject_Z (Qfloor x)) (1 # 2)) eqn:E.
  - apply Qeq_alt in E.
    destruct (Z.even (Qfloor x)); rewrite ?inject_Z_plus;
      change (inject_Z 1) with 1%Q; split; lra.
  - apply Qlt_alt in E. split; lra.
  - apply Qgt_alt in E. rewrite inject_Z_plus.
    change (inject_Z 1) with 1%Q. split; lra.
Qed.

Lemma round_half_even_nonneg x : (0 <= x)%Q -> 0 <= Float.round_half_even x.
Proof.
  intros Hx. unfold Float.round_half_even.
  assert (H0 : 0 <= Qfloor x).
  { change 0 with (Qfloor 0). now apply Qfloor_resp_le. }
  destruct (Qcompare (x - inject_Z (Qfloor x)) (1 # 2)); [|lia|lia].
  destruct (Z.even (Qfloor x)); lia.
Qed.

(** Only an even integer is the rounding of a number half way between
    two integers. *)
Lemma round_half_even_tie x :
  (inject_Z (Float.round_half_even x) - x == 1 # 2)%Q
  \/ (x - inject_Z (Float.round_half_even x) == 1 # 2)%Q ->
  Z.even (Float.round_half_even x) = true.
Proof.
  unfold Float.round_half_even.
  pose proof (Qfloor_le x) as Hlo. pose proof (Qlt_floor x) as Hhi.
  rewrite inject_Z_plus in Hhi. change (inject_Z 1) with 1%Q in Hhi.
  destruct (Qcompare (x - inject_Z (Qfloor x)) (1 # 2)) eqn:E.
  - intros _. destruct (Z.even (Qfloor x)) eqn:Ev; [exact Ev|].
    now rewrite Z.add_1_r, Z.even_succ, <- Z.negb_even, Ev.
  - apply Qlt_alt in E. intros [Ht|Ht]; lra.
  - apply Qgt_alt in E. rewrite inject_Z_plus.
    change (inject_Z 1) with 1%Q. intros [Ht|Ht]; lra.
Qed.

(** [round(x, 2)] of a finite float [x]: a whole number [n] of hundredths
    within half a hundredth of the magnitude of [x], the even one of the
    two when [x] lies half way, turned into the nearest double and given
    the sign of [x]. *)
Lemma round2_nearest_hundredth (sign : bool) (m : positive) (ex : Z) :
  let x := S754_finite sign m ex in
  let magnitude := (inject_Z (Zpos m) * Qpower 2 ex)%Q in
  exists n,
    0 <= n
    /\ Float.round2 x
       = (if sign then Float.neg (Float.true_div n 100)
          else Float.true_div n 100)
    /\ (inject_Z n - magnitude * 100 <= 1 # 2)%Q
    /\ (magnitude * 100 - inject_Z n <= 1 # 2)%Q
    /\ ((inject_Z n - magnitude * 100 == 1 # 2)%Q
        \/ (magnitude * 100 - inject_Z n == 1 # 2)%Q ->
        Z.even n = true).
Proof.
  intros x magnitude.
  exists (Float.round_half_even (magnitude * 100)).
  split; [|split; [reflexivity|]].
  - apply round_half_even_nonneg.
    assert (Hp : (0 < Qpower 2 ex)%Q)
      by (apply Qpower.Qpower_0_lt; reflexivity).
    assert (Hm : (0 < inject_Z (Zpos m))%Q) by reflexivity.
    unfold magnitude. nra.
  - split; [apply round_half_even_near|].
    split; [apply round_half_even_near | apply round_half_even_tie].
Qed.

Lemma count_calls_nonneg cfg p (ops : list (op V)) s :
  0 <= count_calls cfg p ops s.
Proof.
  revert s. induction ops as [|o ops IH]; intros s; simpl; [lia|].
  specialize (IH (step cfg s o)). destruct (p s o); lia.
Qed.

Lemma before_insert_hits_misses cfg key s :
  hits (_stats (before_insert cfg key s)) = hits (_stats s)
  /\ misses (_stats (before_insert cfg key s)) = misses (_stats s).
Proof.
  unfold before_insert, _evict_lru.
  destruct (negb (contains key (_cache s))
            && (MAX_CACHE_SIZE cfg <=? len (_cache s))); [|tauto].
  destruct (popitem_first (_cache s)) as [[kv rest]|]; simpl; tauto.
Qed.

(** What one call other than [reset_stats] adds to the two counters. *)
Lemma step_hits_misses cfg s (o : op V) :
  is_reset o = false ->
  hits (_stats (step cfg s o))
    = hits (_stats s) + (if is_hit cfg s o then 1 else 0)
  /\ misses (_stats (step cfg s o))
    = misses (_stats s) + (if is_recorded_miss cfg s o then 1 else 0).
Proof.
  call_cases o;
    intros Hr; try discriminate; try (split; lia).
  - unfold get. destruct (CACHE_ENABLED cfg); simpl; [|lia].
    destruct (getitem key (_cache s)) as [e|]; simpl; [|lia].
    destruct (_is_expired now e); simpl; lia.
  - destruct (CACHE_ENABLED cfg) eqn:En.
    + rewrite set_enabled by exact En. simpl.
      destruct (before_insert_hits_misses cfg key s). lia.
    + unfold set. rewrite En. simpl. lia.
  - unfold delete. destruct (contains key (_cache s)); simpl; lia.
Qed.

Lemma run_hits_misses cfg (ops : list (op V)) s :
  forallb (fun o => negb (is_reset o)) ops = true ->
  hits (_stats (run cfg ops s))
    = hits (_stats s) + count_calls cfg (is_hit cfg) ops s
  /\ misses (_stats (run cfg ops s))
    = misses (_stats s) + count_calls cfg (is_recorded_miss cfg) ops s.
Proof.
  revert s. induction ops as [|o ops IH]; intros s; simpl; [lia|].
  intros Hall. apply andb_true_iff in Hall as [Ho Hall].
  apply negb_true_iff in Ho.
  destruct (IH (step cfg s o) Hall) as [IH1 IH2].
  destruct (step_hits_misses cfg s o Ho) as [S1 S2]. lia.
Qed.

(** C4. After a history without [reset_stats] on a new cache, in which
    [H] calls of [get] hit and [M] calls of [get] were recorded as misses,
    [get_stats] reports [H] hits and [M] misses.  Its hit rate is [0.0] when
    [H + M = 0].  Otherwise it is [round(H / (H + M) * 100, 2)] in binary64
    arithmetic, where [percentage] is the double [H / (H + M) * 100]: it is
    [0.0] when [H = 0], and when the percentage is a finite non-zero double
    it is the double nearest to [n / 100], with the sign of the percentage,
    for a whole number [n] of hundredths within half a hundredth of the
    magnitude of the percentage, the even one when that lies half way. *)
Theorem hit_rate_rounded_percentage cfg (ops : list (op V)) now :
  forallb (fun o => negb (is_reset o)) ops = true ->
  let H := count_calls cfg (is_hit cfg) ops init in
  let M := count_calls cfg (is_recorded_miss cfg) ops init in
  let report := get_stats cfg now (run cfg ops init) in
  let percentage :=
    Float.mul (Float.true_div H (Z.to_pos (H + M))) (Float.of_int 100) in
  hits_ report = H
  /\ misses_ report = M
  /\ (H + M = 0 -> hit_rate report = Float.zero)
  /\ (0 < H + M ->
       hit_rate report = Float.round2 percentage
       /\ (H = 0 -> hit_rate report = Float.zero)
       /\ forall (sign : bool) (m : positive) (ex : Z),
            percentage = S754_finite sign m ex ->
            let magnitude := (inject_Z (Zpos m) * Qpower 2 ex)%Q in
            exists n,
              0 <= n
              /\ hit_rate report
                 = (if sign then Float.neg (Float.true_div n 100)
                    else Float.true_div n 100)
              /\ (inject_Z n - magnitude * 100 <= 1 # 2)%Q
              /\ (magnitude * 100 - inject_Z n <= 1 # 2)%Q
              /\ ((inject_Z n - magnitude * 100 == 1 # 2)%Q
                  \/ (magnitude * 100 - inject_Z n == 1 # 2)%Q ->
                  Z.even n = true)).
Proof.
  intros Hall. destruct (run_hits_misses cfg ops init Hall) as [Hh Hm].
  simpl in Hh, Hm. cbn [get_stats hits_ misses_ hit_rate].
  unfold raw_hit_rate. rewrite Hh, Hm.
  split; [reflexivity|]. split; [reflexivity|]. split.
  - intros H0. rewrite H0. reflexivity.
  - intros Hpos.
    destruct (count_calls cfg (is_hit cfg) ops init
              + count_calls cfg (is_recorded_miss cfg) ops init)
      as [|total|total]; [lia| |lia].
    cbn [Z.to_pos]. split; [reflexivity|]. split.
    + intros ->. reflexivity.
    + intros sign m ex ->. apply round2_nearest_hundredth.
Qed.

(** *** The store is ordered by recency *)

Lemma StronglySorted_filter {B : Type} (R : B -> B -> Prop) p (l : list B) :
  StronglySorted R l -> StronglySorted R (filter p l).
Proof.
  induction 1 as [|x l Hs IH Hx]; simpl; [constructor|].
  destruct (p x); [|exact IH]. constructor; [exact IH|].
  apply Forall_forall. intros y Hy. apply filter_In in Hy as [Hy _].
  revert y Hy. now apply Forall_forall.
Qed.

Lemma StronglySorted_snoc {B : Type} (R : B -> B -> Prop) (l : list B) y :
  StronglySorted R l -> Forall (fun x => R x y) l ->
  StronglySorted R (l ++ [y]).
Proof.
  induction 1 as [|x l Hs IH Hx]; simpl; intros Hy.
  - repeat constructor.
  - inversion Hy as [|? ? Hxy Hly]; subst. constructor; [now apply IH|].
    apply Forall_app. split; [exact Hx | now constructor].
Qed.

Lemma StronglySorted_ext_in {B : Type} (R R' : B -> B -> Prop) (l : list B) :
  (forall x y, In x l -> In y l -> R x y -> R' x y) ->
  StronglySorted R l -> StronglySorted R' l.
Proof.
  intros Hext Hs. induction Hs as [|x l Hs IH Hx]; [constructor|].
  constructor.
  - apply IH. intros a b Ha Hb. apply Hext; now right.
  - apply Forall_forall. intros y Hy. apply Hext; [now left | now right|].
    revert y Hy. now apply Forall_forall.
Qed.

Lemma record_touch_same lt k n : record_touch lt k n k = Some n.
Proof. unfold record_touch. now rewrite String.eqb_refl. Qed.

Lemma record_touch_other lt k n k' :
  k' <> k -> record_touch lt k n k' = lt k'.
Proof.
  intros Hne. unfold record_touch.
  destruct (String.eqb_spec k' k); [contradiction|reflexivity].
Qed.

Lemma touched_below_filter n lt p d :
  touched_below n lt d -> touched_below n lt (filter p d).
Proof.
  unfold touched_below. rewrite !Forall_forall. intros H kv Hin.
  apply filter_In in Hin. now apply H.
Qed.

Lemma touched_below_S n lt d :
  touched_below n lt d -> touched_below (S n) lt d.
Proof.
  unfold touched_below. apply Forall_impl.
  intros kv [i [Hi Hlt]]. exists i. split; [exact Hi | lia].
Qed.

(** Moving a key to the end when call [n] touches it keeps the order. *)
Lemma touch_moves_to_end n lt key e d :
  touched_below n lt d -> recency_ordered lt d ->
  touched_below (S n) (record_touch lt key n) (delitem key d ++ [(key, e)])
  /\ recency_ordered (record_touch lt key n) (delitem key d ++ [(key, e)]).
Proof.
  intros Hb Hs.
  assert (Hold : forall kv, In kv (delitem key d) ->
            In kv d /\ record_touch lt key n (fst kv) = lt (fst kv)).
  { intros [k e'] Hin. apply In_delitem in Hin as [Hne Hin].
    split; [exact Hin | now apply record_touch_other]. }
  unfold touched_below in Hb. rewrite Forall_forall in Hb. split.
  - apply Forall_app. split.
    + apply Forall_forall. intros kv Hin.
      destruct (Hold kv Hin) as [Hin' ->].
      destruct (Hb kv Hin') as [i [Hi Hlt]]. exists i. split; [exact Hi | lia].
    + constructor; [|constructor]. exists n. simpl.
      split; [apply record_touch_same | lia].
  - apply StronglySorted_snoc.
    + apply StronglySorted_ext_in
        with (R := fun kv kv' => touched_before lt (fst kv) (fst kv')).
      * intros x y Hx Hy. unfold touched_before.
        destruct (Hold x Hx) as [_ ->]. destruct (Hold y Hy) as [_ ->]. tauto.
      * rewrite delitem_filter. now apply StronglySorted_filter.
    + apply Forall_forall. intros kv Hin. unfold touched_before. simpl.
      destruct (Hold kv Hin) as [Hin' ->]. rewrite record_touch_same.
      destruct (Hb kv Hin') as [i [-> Hlt]]. exact Hlt.
Qed.

Lemma before_insert_recency cfg key n lt s :
  touched_below n lt (_cache s) -> recency_ordered lt (_cache s) ->
  touched_below n lt (_cache (before_insert cfg key s))
  /\ recency_ordered lt (_cache (before_insert cfg key s)).
Proof.
  intros Hb Hs. unfold before_insert, _evict_lru.
  destruct (negb (contains key (_cache s))
            && (MAX_CACHE_SIZE cfg <=? len (_cache s))); [|tauto].
  destruct (_cache s) as [|kv rest] eqn:E; simpl; rewrite ?E; [tauto|].
  split.
  - now inversion Hb.
  - now inversion Hs.
Qed.

(** One call keeps the store ordered by the number of the last touch. *)
Lemma step_recency cfg s (o : op V) n lt :
  touched_below n lt (_cache s) -> recency_ordered lt (_cache s) ->
  touched_below (S n) (touch_step cfg s o n lt) (_cache (step cfg s o))
  /\ recency_ordered (touch_step cfg s o n lt) (_cache (step cfg s o)).
Proof.
  intros Hb Hs.
  assert (Hsame : touched_below (S n) lt (_cache s)
                  /\ recency_ordered lt (_cache s))
    by (split; [now apply touched_below_S | exact Hs]).
  assert (Hfilter : forall p,
            touched_below (S n) lt (filter p (_cache s))
            /\ recency_ordered lt (filter p (_cache s))).
  { intros p. split.
    - now apply touched_below_filter, touched_below_S.
    - now apply StronglySorted_filter. }
  unfold touch_step.
  call_cases o;
    try exact Hsame.
  - unfold get. destruct (CACHE_ENABLED cfg); simpl; [|exact Hsame].
    destruct (getitem key (_cache s)) as [e|] eqn:E; [|exact Hsame].
    destruct (_is_expired now e); simpl.
    + rewrite delitem_filter. apply Hfilter.
    + unfold move_to_end. rewrite E. now apply touch_moves_to_end.
  - destruct (CACHE_ENABLED cfg) eqn:En.
    + rewrite set_enabled by exact En. simpl.
      destruct (before_insert_recency cfg key n lt s Hb Hs).
      now apply touch_moves_to_end.
    + unfold set. rewrite En. exact Hsame.
  - unfold delete. destruct (contains key (_cache s)); [|exact Hsame].
    simpl. rewrite delitem_filter. apply Hfilter.
  - split; constructor.
  - rewrite delete_all_filter. apply Hfilter.
  - rewrite delete_all_filter. apply Hfilter.
Qed.

Lemma last_touch_recency cfg (ops : list (op V)) n s lt :
  touched_below n lt (_cache s) -> recency_ordered lt (_cache s) ->
  touched_below (n + length ops) (last_touch cfg ops n s lt)
                (_cache (run cfg ops s))
  /\ recency_ordered (last_touch cfg ops n s lt) (_cache (run cfg ops s)).
Proof.
  revert n s lt. induction ops as [|o ops IH]; intros n s lt Hb Hs; simpl.
  - rewrite Nat.add_0_r. tauto.
  - destruct (step_recency cfg s o n lt Hb Hs) as [Hb' Hs'].
    replace (n + S (length ops))%nat with (S n + length ops)%nat by lia.
    now apply IH.
Qed.

(** The touch map records, for a key, the number of the last call of the
    history that touched it. *)
Lemma last_touch_is_last cfg (ops : list (op V)) n s lt k i :
  last_touch cfg ops n s lt k = Some i ->
  (touches_key cfg k ops s = false /\ lt k = Some i)
  \/ exists before o after,
       ops = before ++ o :: after
       /\ i = (n + length before)%nat
       /\ touched cfg (run cfg before s) o = Some k
       /\ touches_key cfg k after (run cfg (before ++ [o]) s) = false.
Proof.
  revert n s lt. induction ops as [|o ops IH]; intros n s lt H; simpl in *.
  - left. tauto.
  - apply IH in H as [[Hno Hlt]|(before & o' & after & -> & -> & Ht & Hno)].
    + unfold touch_step in Hlt.
      destruct (touched cfg s o) as [k'|] eqn:Ht; simpl.
      * unfold record_touch in Hlt.
        destruct (String.eqb_spec k k') as [->|Hne].
        -- right. exists [], o, ops. simpl.
           injection Hlt as <-. rewrite Nat.add_0_r. tauto.
        -- left. tauto.
      * left. tauto.
    + right. exists (o :: before), o', after. simpl.
      repeat split; [lia | exact Ht | exact Hno].
Qed.

Lemma wf_before_insert cfg key s :
  wf (_cache s) -> wf (_cache (before_insert cfg key s)).
Proof.
  intros H. unfold before_insert, _evict_lru.
  destruct (negb (contains key (_cache s))
            && (MAX_CACHE_SIZE cfg <=? len (_cache s))); [|exact H].
  destruct (_cache s) as [|kv rest] eqn:E; simpl; rewrite ?E; [exact H|].
  now apply wf_tail in H.
Qed.

(** Every call keeps the keys of the store unique. *)
Lemma step_wf cfg s (o : op V) : wf (_cache s) -> wf (_cache (step cfg s o)).
Proof.
  intros H. call_cases o; try exact H.
  - unfold get. destruct (CACHE_ENABLED cfg); simpl; [|exact H].
    destruct (getitem key (_cache s)) as [e|]; [|exact H].
    destruct (_is_expired now e); simpl;
      [now apply wf_delitem | now apply wf_move_to_end].
  - destruct (CACHE_ENABLED cfg) eqn:En.
    + rewrite set_enabled by exact En. simpl. apply wf_snoc.
      * now apply wf_delitem, wf_before_insert.
      * rewrite In_keys_delitem. tauto.
    + unfold set. rewrite En. exact H.
  - unfold delete. destruct (contains key (_cache s)); [|exact H].
    now apply wf_delitem.
  - constructor.
  - now apply wf_delete_all.
  - now apply wf_delete_all.
Qed.

Lemma run_wf cfg (ops : list (op V)) :
  wf (_cache (run cfg ops init)).
Proof.
  assert (H : forall s, wf (_cache s) -> wf (_cache (run cfg ops s))).
  { induction ops as [|o ops IH]; intros s Hs; [exact Hs|].
    simpl. now apply IH, step_wf. }
  apply H. constructor.
Qed.

(** Inserting distinct keys, no more than the capacity, into a new cache
    stores them all, in the order of insertion. *)
Lemma distinct_sets_fill cfg (xs : list (string * V * option Z * Z * Z)) :
  CACHE_ENABLED cfg = true ->
  NoDup (map key_of xs) ->
  Z.of_nat (length xs) <= MAX_CACHE_SIZE cfg ->
  keys (_cache (run cfg (map as_set xs) init)) = map key_of xs.
Proof.
  intros En. induction xs as [|x xs IH] using rev_ind; intros Hnd Hlen.
  - reflexivity.
  - rewrite map_app in Hnd. simpl in Hnd.
    rewrite length_app in Hlen. simpl in Hlen.
    assert (Hnew : ~ In (key_of x) (map key_of xs)).
    { apply NoDup_remove_2 in Hnd. now rewrite app_nil_r in Hnd. }
    apply NoDup_remove_1 in Hnd. rewrite app_nil_r in Hnd.
    specialize (IH Hnd ltac:(lia)).
    rewrite !map_app, run_app. simpl.
    destruct x as [[[[k v] ttl] t1] t2]. simpl in *.
    rewrite set_enabled by exact En.
    rewrite before_insert_room.
    + simpl. rewrite delitem_absent by now rewrite IH.
      unfold keys in *. rewrite map_app, IH. reflexivity.
    + unfold len. rewrite <- (length_map fst).
      fold (keys (_cache (run cfg (map as_set xs) init))).
      rewrite IH, length_map. lia.
Qed.

(** C1. Take the state [s] after any history on a new cache, with caching
    enabled, and let [lt] give for each key the number of the last call
    that touched it, a touch being a [set] or a [get] that hit.  If the
    store is not empty and holds at least [MAX_CACHE_SIZE] entries (as it
    does once that many distinct keys are stored), then a [set] of an
    absent key evicts exactly the front key [k0], and [k0] is the key
    whose last touch is older than that of every other stored key: the
    other entries all stay, in their order, the new entry is appended, the
    eviction counter goes up by one, and a following [get] of [k0]
    misses. *)
Theorem lru_evicts_least_recently_touched cfg (ops : list (op V))
    key (v : V) ttl t1 t2 :
  let s := run cfg ops init in
  let lt := last_touch cfg ops 0 init never_touched in
  let s' := set cfg key v ttl t1 t2 s in
  CACHE_ENABLED cfg = true ->
  ~ In key (keys (_cache s)) ->
  _cache s <> [] ->
  MAX_CACHE_SIZE cfg <= len (_cache s) ->
  exists k0 e0 rest i0,
    _cache s = (k0, e0) :: rest
    /\ lt k0 = Some i0
    /\ (forall k e, In (k, e) rest ->
                    exists i, lt k = Some i /\ (i0 < i)%nat)
    /\ _cache s' = rest ++ [(key, new_entry cfg v ttl t1 t2)]
    /\ evictions (_stats s') = evictions (_stats s) + 1
    /\ ~ In k0 (keys (_cache s'))
    /\ (forall now, fst (get cfg k0 now s') = None).
Proof.
  intros s lt s' En Hk Hne Hfull.
  destruct (last_touch_recency cfg ops 0 init never_touched) as [Hb Hs];
    [constructor | constructor |].
  fold s lt in Hb, Hs.
  destruct (_cache s) as [|[k0 e0] rest] eqn:Hc; [congruence|].
  inversion Hb as [|? ? [i0 [Hi0 _]] _]; subst.
  inversion Hs as [|? ? _ Hfront]; subst. simpl in Hi0.
  assert (Hlater : forall k e, In (k, e) rest ->
            exists i, lt k = Some i /\ (i0 < i)%nat).
  { intros k e Hin. rewrite Forall_forall in Hfront.
    specialize (Hfront (k, e) Hin). unfold touched_before in Hfront.
    simpl in Hfront. rewrite Hi0 in Hfront.
    destruct (lt k) as [i|]; [|contradiction]. now exists i. }
  assert (Hc' : _cache s' = rest ++ [(key, new_entry cfg v ttl t1 t2)]).
  { unfold s'. rewrite set_enabled by exact En.
    rewrite (before_insert_full cfg key s k0 e0 rest); try rewrite Hc; auto.
    simpl. rewrite delitem_absent; [reflexivity|].
    intros H. apply Hk. now right. }
  assert (Hgone : ~ In k0 (keys (_cache s'))).
  { rewrite Hc'. unfold keys. rewrite map_app, in_app_iff. simpl.
    intros [H|[H|[]]].
    - apply in_map_iff in H as [[k e] [Hfst Hin]]. simpl in Hfst. subst k.
      destruct (Hlater k0 e Hin) as [i [Hi Hlt]]. rewrite Hi0 in Hi.
      injection Hi as <-. lia.
    - apply Hk. left. now symmetry. }
  exists k0, e0, rest, i0. repeat split; try assumption.
  - unfold s'. rewrite set_enabled by exact En.
    rewrite (before_insert_full cfg key s k0 e0 rest); try rewrite Hc; auto.
  - intros now. rewrite get_absent; [reflexivity | exact En|].
    now apply getitem_None.
Qed.

(** C3. Let [s] be a state in which [key] still holds the entry a [set]
    with lifetime [ttl] wrote, and let [expiry] be the reading that [set]
    took plus the lifetime.  A [get] at an instant up to [expiry] hits:
    it returns the value, [hits] grows by one and no other counter moves.
    A [get] after [expiry] misses: it returns nothing and deletes the key
    from the store, [misses] grows by one and no other counter moves; a
    following [size] counts the entries of a store in which the key is
    absent, so fewer than the store held. *)
Theorem get_lazy_expiry cfg key (v : V) ttl t1 t2 s0 s now :
  CACHE_ENABLED cfg = true ->
  getitem key (_cache s) =
    getitem key (_cache (set cfg key v ttl t1 t2 s0)) ->
  let expiry := t1 + effective_ttl cfg ttl in
  let s' := snd (get cfg key now s) in
  (now <= expiry ->
     fst (get cfg key now s) = Some v
     /\ hits (_stats s') = hits (_stats s) + 1
     /\ misses (_stats s') = misses (_stats s)
     /\ evictions (_stats s') = evictions (_stats s)
     /\ sets (_stats s') = sets (_stats s))
  /\ (expiry < now ->
     fst (get cfg key now s) = None
     /\ _cache s' = delitem key (_cache s)
     /\ ~ In key (keys (_cache s'))
     /\ misses (_stats s') = misses (_stats s) + 1
     /\ hits (_stats s') = hits (_stats s)
     /\ evictions (_stats s') = evictions (_stats s)
     /\ sets (_stats s') = sets (_stats s)
     /\ forall clk,
         fst (size clk s') = len (_cache (snd (size clk s')))
         /\ ~ In key (keys (_cache (snd (size clk s'))))
         /\ fst (size clk s') < len (_cache s)).
Proof.
  intros En He. rewrite set_getitem in He by exact En. simpl. split.
  - intros Hnow. erewrite get_hit; [|exact En|exact He|simpl; lia].
    simpl. tauto.
  - intros Hnow. erewrite get_expired; [|exact En|exact He|simpl; lia].
    simpl. repeat split.
    + rewrite In_keys_delitem. tauto.
    + rewrite In_keys_delete_all, In_keys_delitem. tauto.
    + unfold len.
      pose proof (length_delete_all
        (expired_keys clk (delitem key (_cache s))) (delitem key (_cache s))).
      assert (Hin : In key (keys (_cache s))).
      { apply contains_true. unfold contains. now rewrite He. }
      pose proof (length_delitem_present key (_cache s) Hin). lia.
Qed.

(** C7. Let the clock readings of one [cleanup_expired] call all lie
    between [lo] and [hi] (both equal to [now] when the clock stands still
    during the call), and let every entry of the store have its expiry
    either in the past, before [lo], or in the future, at or after [hi].
    With [N] entries of the first kind and [M] of the second, the call
    returns [N] and leaves a store that consists of the [M] live entries,
    unchanged and in their order. *)
Theorem cleanup_expired_sweeps_exactly clk lo hi s N M :
  wf (_cache s) ->
  (forall j, lo <= clk j <= hi) ->
  Forall (fun kv => expires_at (snd kv) < lo \/ hi <= expires_at (snd kv))
         (_cache s) ->
  length (filter (past lo) (_cache s)) = N ->
  length (filter (not_past lo) (_cache s)) = M ->
  let s' := snd (cleanup_expired clk s) in
  fst (cleanup_expired clk s) = Z.of_nat N
  /\ _cache s' = filter (not_past lo) (_cache s)
  /\ length (_cache s') = M
  /\ (length (_cache s) = N + M)%nat
  /\ _stats s' = _stats s.
Proof.
  intros Hwf Hclk Hall HN HM. unfold cleanup_expired, expired_keys. simpl.
  rewrite (expired_keys_from_past clk lo hi 0 (_cache s) Hclk Hall).
  rewrite delete_all_keys_filter by exact Hwf.
  fold (not_past lo : string * entry V -> bool).
  unfold keys. rewrite length_map.
  pose proof (filter_partition_length (past lo) (_cache s)) as Hp.
  fold (not_past lo : string * entry V -> bool) in Hp.
  repeat split; try congruence; lia.
Qed.

(** C10. With caching disabled, [get] reports a miss and returns the
    state it was given: no counter moves and the store is not touched. *)
Theorem get_disabled_no_stats cfg key now s :
  CACHE_ENABLED cfg = false ->
  get cfg key now s = (None, s).
Proof. intros Off. unfold get. now rewrite Off. Qed.

(** C9. A [get] that finds a key whose entry has not expired returns the
    stored value and leaves the entry as it was, [expires_at] and
    [created_at] included; the key moves to the most recently used end,
    every other key keeps its entry and the relative order, and of the
    counters only [hits] changes, by one.  Hence after any number of such
    reads the entry is still the same, and a read after its expiry
    misses. *)
Theorem get_hit_keeps_lifetime cfg key now s e :
  CACHE_ENABLED cfg = true ->
  getitem key (_cache s) = Some e ->
  now <= expires_at e ->
  let s' := snd (get cfg key now s) in
  fst (get cfg key now s) = Some (value e)
  /\ getitem key (_cache s') = Some e
  /\ _cache s' = delitem key (_cache s) ++ [(key, e)]
  /\ (forall k, k <> key -> getitem k (_cache s') = getitem k (_cache s))
  /\ _stats s' = incr_hits (_stats s)
  /\ (forall nows later,
        Forall (fun t => t <= expires_at e) nows ->
        expires_at e < later ->
        let s'' := run cfg (reads key nows) s' in
        getitem key (_cache s'') = Some e
        /\ fst (get cfg key later s'') = None).
Proof.
  intros En He Hnow. rewrite (get_hit cfg key now s e En He Hnow). simpl.
  repeat split.
  - apply getitem_snoc_same.
  - intros k Hne. now apply getitem_snoc_other.
  - apply getitem_reads; [exact En | apply getitem_snoc_same | assumption].
  - erewrite get_expired; [reflexivity | exact En | | eassumption].
    apply getitem_reads; [exact En | apply getitem_snoc_same | assumption].
Qed.

(** C5. A [set] on a key that is already present evicts nothing: the
    eviction counter keeps its value, every other key keeps its entry, the
    other entries keep their order, and the store holds the same keys as
    before; this holds at full capacity as at any other size. *)
Theorem set_overwrite_does_not_evict cfg key (v : V) ttl t1 t2 s :
  In key (keys (_cache s)) ->
  let s' := set cfg key v ttl t1 t2 s in
  evictions (_stats s') = evictions (_stats s)
  /\ (forall k, k <> key -> getitem k (_cache s') = getitem k (_cache s))
  /\ delitem key (_cache s') = delitem key (_cache s)
  /\ (forall k, In k (keys (_cache s')) <-> In k (keys (_cache s))).
Proof.
  intros Hin. destruct (CACHE_ENABLED cfg) eqn:En.
  - rewrite set_enabled by exact En.
    rewrite before_insert_present by exact Hin. simpl.
    split; [reflexivity|]. split; [|split].
    + intros k Hne. now apply getitem_snoc_other.
    + rewrite delitem_app. simpl. rewrite String.eqb_refl, app_nil_r.
      rewrite delitem_absent; [reflexivity|].
      rewrite In_keys_delitem. tauto.
    + intros k. unfold keys at 1. rewrite map_app, in_app_iff.
      fold (keys (delitem key (_cache s))). rewrite In_keys_delitem. simpl.
      destruct (string_dec k key) as [->|Hne]; intuition congruence.
  - unfold set. rewrite En. simpl. tauto.
Qed.

(** C8. When an absent key is set into a store whose entry count has
    reached the capacity, the front entry is evicted and the eviction
    counter goes up by one whatever the expiry times are: the front entry
    may be live, and every other entry, expired ones included, stays in
    the store behind which the new entry is appended.  The capacity test
    counts all stored entries. *)
Theorem set_evicts_front_ignoring_expiry cfg key (v : V) ttl t1 t2 s
    k0 e0 rest :
  CACHE_ENABLED cfg = true ->
  _cache s = (k0, e0) :: rest ->
  ~ In key (keys (_cache s)) ->
  MAX_CACHE_SIZE cfg <= len (_cache s) ->
  let s' := set cfg key v ttl t1 t2 s in
  _cache s' = rest ++ [(key, {| value := v;
                               expires_at := t1 + effective_ttl cfg ttl;
                               created_at := t2 |})]
  /\ evictions (_stats s') = evictions (_stats s) + 1
  /\ (forall now k e,
        In (k, e) rest -> _is_expired now e = true -> In (k, e) (_cache s')).
Proof.
  intros En Hc Hk Hfull.
  rewrite set_enabled by exact En.
  rewrite (before_insert_full cfg key s k0 e0 rest Hk Hfull Hc). simpl.
  assert (Hrest : delitem key rest = rest).
  { apply delitem_absent. intros H. apply Hk. rewrite Hc. now right. }
  rewrite Hrest. repeat split.
  intros _ k e Hin _. apply in_app_iff. now left.
Qed.

End Facts.

(** *** The statements at concrete inputs *)

Import Scenario.

Local Open Scope string_scope.

Lemma lru_evicts_least_recently_touched_witness :
  keys (_cache warm) = ["b"; "a"]
  /\ last_touch cfg2 warm_up 0 init never_touched "b" = Some 1%nat
  /\ last_touch cfg2 warm_up 0 init never_touched "a" = Some 2%nat
  /\ keys (_cache (set cfg2 "c" "Z" None 3 3 warm)) = ["a"; "c"]
  /\ fst (get cfg2 "b" 4 (set cfg2 "c" "Z" None 3 3 warm)) = None.
Proof.
  destruct (lru_evicts_least_recently_touched cfg2 warm_up "c" "Z" None 3 3)
    as (k0 & e0 & rest & i0 & Hc & Hi & Hlater & Hc' & Hev & Hgone & Hmiss).
  - reflexivity.
  - simpl. intuition discriminate.
  - discriminate.
  - vm_compute. discriminate.
  - vm_compute in Hc. injection Hc as <- <- <-.
    fold warm in Hc', Hmiss. rewrite Hc'.
    split; [reflexivity|]. split; [reflexivity|]. split; [reflexivity|].
    split; [reflexivity | apply Hmiss].
Defined.

Lemma capacity_bound_at_two :
  len (_cache (run cfg2 full_story init)) <= 2.
Proof.
  apply (proj1 (proj2 (capacity_bound cfg2 full_story))). simpl. lia.
Qed.

(** C2. The capacity invariant fails at a capacity of zero.  With
    [MAX_CACHE_SIZE = 0] the first [set] on the new cache calls
    [_evict_lru] on an empty store, which removes nothing and counts no
    eviction, and then inserts: the store holds one entry, more than the
    capacity allows. *)
Theorem capacity_zero_keeps_an_entry :
  let s := set cfg0 "a" "X" None 0 0 init in
  MAX_CACHE_SIZE cfg0 = 0
  /\ _evict_lru (@init string) = init
  /\ run cfg0 one_set init = s
  /\ keys (_cache s) = ["a"]
  /\ len (_cache s) = 1
  /\ evictions (_stats s) = 0
  /\ ~ len (_cache s) <= MAX_CACHE_SIZE cfg0.
Proof.
  cbv zeta. repeat split. vm_compute. intros H. apply H. reflexivity.
Qed.

Lemma get_lazy_expiry_witness :
  let s := set cfg2 "a" "X" (Some 10) 0 0 init in
  fst (get cfg2 "a" 5 s) = Some "X"
  /\ hits (_stats (snd (get cfg2 "a" 5 s))) = 1
  /\ fst (get cfg2 "a" 11 s) = None
  /\ misses (_stats (snd (get cfg2 "a" 11 s))) = 1
  /\ fst (size (fun _ => 11) (snd (get cfg2 "a" 11 s))) < 1.
Proof.
  intros s.
  destruct (get_lazy_expiry cfg2 "a" "X" (Some 10) 0 0 init s 5)
    as [Hhit _]; [reflexivity | reflexivity |].
  destruct (get_lazy_expiry cfg2 "a" "X" (Some 10) 0 0 init s 11)
    as [_ Hmiss]; [reflexivity | reflexivity |].
  destruct Hhit as (Hv & Hh & _); [simpl; lia|].
  destruct Hmiss as (Hn & _ & _ & Hm & _ & _ & _ & Hsize); [simpl; lia|].
  split; [exact Hv|]. split; [exact Hh|]. split; [exact Hn|].
  split; [exact Hm|]. apply (Hsize (fun _ => 11)).
Defined.

Lemma hit_rate_rounded_percentage_witness :
  hit_rate (get_stats cfg2 5 (run cfg2 full_story init))
  = S754_finite false 7036874417766400 (-47)
  /\ hit_rate (get_stats cfg2 6 (run cfg2 one_in_three init))
     = S754_finite false 4690780486883082 (-47)
  /\ Float.true_div 50 1 = S754_finite false 7036874417766400 (-47)
  /\ Float.true_div 3333 100 = S754_finite false 4690780486883082 (-47).
Proof.
  destruct (hit_rate_rounded_percentage cfg2 full_story 5)
    as (_ & _ & _ & Hhalf); [reflexivity|].
  destruct Hhalf as [Hhalf _]; [vm_compute; reflexivity|].
  destruct (hit_rate_rounded_percentage cfg2 one_in_three 6)
    as (_ & _ & _ & Hthird); [reflexivity|].
  destruct Hthird as [Hthird _]; [vm_compute; reflexivity|].
  split; [rewrite Hhalf; vm_compute; reflexivity|].
  split; [rewrite Hthird; vm_compute; reflexivity|].
  split; vm_compute; reflexivity.
Defined.

(** One hit and two misses: the reported hit rate is the double written
    [33.33], which is neither the ratio 1/3 nor the percentage 100/3, in
    floating point or in exact value. *)
Lemma hit_rate_counterexample :
  let H := count_calls cfg2 (is_hit cfg2) one_in_three init in
  let M := count_calls cfg2 (is_recorded_miss cfg2) one_in_three init in
  let reported := hit_rate (get_stats cfg2 6 (run cfg2 one_in_three init)) in
  H = 1 /\ M = 2
  /\ reported = Float.true_div 3333 100
  /\ reported <> Float.true_div H (Z.to_pos (H + M))
  /\ reported
     <> Float.mul (Float.true_div H (Z.to_pos (H + M))) (Float.of_int 100)
  /\ ~ (Float.value reported == inject_Z H / inject_Z (H + M))%Q
  /\ ~ (Float.value reported == inject_Z H / inject_Z (H + M) * 100)%Q.
Proof.
  cbv zeta. split; [reflexivity|]. split; [reflexivity|].
  split; [vm_compute; reflexivity|].
  split; [vm_compute; discriminate|].
  split; [vm_compute; discriminate|].
  split; vm_compute; discriminate.
Qed.

(** The figures of [get_stats] at inputs where rounding in binary floating
    point and rounding of the exact fraction part ways. *)

(** One hit in 4000 requests is reported as [0.03]: the double product
    [1 / 4000 * 100] lies above 0.025. *)
Example hit_rate_one_in_4000 :
  hit_rate (get_stats cfg2 0 (counted 1 3999)) = Float.true_div 3 100.
Proof. vm_compute. reflexivity. Qed.

(** 23 hits in 160 requests are reported as [14.37]: the double product
    lies below 14.375. *)
Example hit_rate_23_in_160 :
  hit_rate (get_stats cfg2 0 (counted 23 137)) = Float.true_div 1437 100.
Proof. vm_compute. reflexivity. Qed.

(** 3 hits in 32 requests: the product is 9.375 exactly, and the tie goes
    to the even hundredth, [9.38]. *)
Example hit_rate_3_in_32 :
  hit_rate (get_stats cfg2 0 (counted 3 29)) = Float.true_div 938 100.
Proof. vm_compute. reflexivity. Qed.

(** 64 entries are estimated at [0.07] megabytes: [64 * 1.2 / 1024] is a
    double below 0.075. *)
Example estimated_memory_of_64 :
  size_ (get_stats cfg2 0 (crowd 64)) = 64
  /\ estimated_memory_mb (get_stats cfg2 0 (crowd 64))
     = Float.true_div 7 100.
Proof. vm_compute. split; reflexivity. Qed.

(** An empty store has no oldest entry; an entry created at the reading
    [get_stats] makes has age zero, which is reported as [None] too. *)
Example oldest_age_falsy :
  oldest_entry_age_seconds (get_stats cfg2 9 (@init string)) = None
  /\ oldest_entry_age_seconds (get_stats cfg2 1 warm) = None
  /\ oldest_entry_age_seconds (get_stats cfg2 9 warm)
     = Some (Float.of_int 8).
Proof. vm_compute. repeat split; reflexivity. Qed.

Lemma set_overwrite_does_not_evict_witness :
  len (_cache warm) = MAX_CACHE_SIZE cfg2
  /\ evictions (_stats (set cfg2 "b" "W" None 3 3 warm))
     = evictions (_stats warm)
  /\ getitem "a" (_cache (set cfg2 "b" "W" None 3 3 warm))
     = getitem "a" (_cache warm).
Proof.
  split; [reflexivity|].
  destruct (set_overwrite_does_not_evict cfg2 "b" "W" None 3 3 warm)
    as (Hev & Hother & _).
  - simpl. tauto.
  - split; [exact Hev|]. apply Hother. discriminate.
Defined.

Lemma entry_timestamps_ordered_witness :
  Forall timestamps_ordered (_cache (run cfg2 zero_ttl init)).
Proof.
  apply (entry_timestamps_ordered cfg2 zero_ttl).
  repeat constructor; simpl; lia.
Defined.

Lemma entry_timestamps_counterexample :
  ~ Forall timestamps_ordered (_cache (run cfg2 negative_ttl init)).
Proof.
  intros H. inversion H as [|kv r Hkv _]; subst.
  unfold timestamps_ordered in Hkv. simpl in Hkv. lia.
Qed.

Lemma cleanup_expired_sweeps_exactly_witness :
  fst (cleanup_expired (fun _ => 10) stale_behind) = 1
  /\ keys (_cache (snd (cleanup_expired (fun _ => 10) stale_behind))) = ["a"].
Proof.
  destruct (cleanup_expired_sweeps_exactly
              (fun _ => 10) 10 10 stale_behind 1 1)
    as (Hn & Hc & _).
  - repeat constructor; simpl; intuition discriminate.
  - intros j. lia.
  - repeat constructor; simpl; lia.
  - reflexivity.
  - reflexivity.
  - split; [exact Hn|]. rewrite Hc. reflexivity.
Defined.

Lemma set_evicts_front_ignoring_expiry_witness :
  OrderedDict.values (_cache stale_behind)
    = [ {| value := "X"; expires_at := 1000; created_at := 0 |};
        {| value := "Y"; expires_at := 5; created_at := 1 |} ]
  /\ keys (_cache (set cfg2 "c" "Z" None 10 10 stale_behind)) = ["b"; "c"]
  /\ evictions (_stats (set cfg2 "c" "Z" None 10 10 stale_behind)) = 1.
Proof.
  split; [reflexivity|].
  destruct (set_evicts_front_ignoring_expiry cfg2 "c" "Z" None 10 10
              stale_behind "a"
              {| value := "X"; expires_at := 1000; created_at := 0 |}
              [("b", {| value := "Y"; expires_at := 5; created_at := 1 |})])
    as (Hc & Hev & _).
  - reflexivity.
  - reflexivity.
  - simpl. intuition discriminate.
  - vm_compute. discriminate.
  - split; [rewrite Hc; reflexivity | exact Hev].
Defined.

Lemma get_hit_keeps_lifetime_witness :
  fst (get cfg2 "b" 10 warm) = Some "Y"
  /\ getitem "b" (_cache (snd (get cfg2 "b" 10 warm)))
     = Some {| value := "Y"; expires_at := 1001; created_at := 1 |}.
Proof.
  destruct (get_hit_keeps_lifetime cfg2 "b" 10 warm
              {| value := "Y"; expires_at := 1001; created_at := 1 |})
    as (Hv & He & _).
  - reflexivity.
  - reflexivity.
  - simpl. lia.
  - split; [exact Hv | exact He].
Defined.

Lemma get_disabled_no_stats_witness :
  get cfg_off "a" 5 warm = (None, warm).
Proof. apply (get_disabled_no_stats cfg_off "a" 5 warm). reflexivity. Defined.

End LRUCacheFacts.

(** ** Further properties of the cache operations *)

Module LRUCacheMore.

Import Config OrderedDict OrderedDictFacts LRUCache LRUCacheFacts Accounting.

Section More.
Context {V : Type}.
Implicit Types (s : LRUCache.t V) (e : entry V) (key k : string)
  (d : OrderedDict.t (entry V)).

Lemma step_disabled_init cfg (o : op V) :
  CACHE_ENABLED cfg = false -> step cfg init o = init.
Proof.
  intros Off. destruct o; simpl; try reflexivity.
  - unfold get. now rewrite Off.
  - unfold set. now rewrite Off.
Qed.

(** X1. With caching disabled a new cache never leaves its initial state:
    after any history of calls the store is empty and every counter is
    zero, and every [get] reports a miss. *)
Theorem disabled_cache_stays_new cfg (ops : list (op V)) :
  CACHE_ENABLED cfg = false ->
  run cfg ops init = init
  /\ forall key now, get cfg key now (run cfg ops init) = (None, init).
Proof.
  intros Off.
  assert (H : run cfg ops init = init).
  { induction ops as [|o ops IH]; [reflexivity|].
    simpl. now rewrite step_disabled_init. }
  split; [exact H|]. intros key now. rewrite H. unfold get. now rewrite Off.
Qed.

(** X2. [get] never serves an entry past its expiry: when it returns a
    value, caching is enabled and the store maps the key to an entry with
    that value whose [expires_at] is not before the clock reading. *)
Theorem get_never_stale cfg key now s (v : V) :
  fst (get cfg key now s) = Some v ->
  CACHE_ENABLED cfg = true
  /\ exists e, getitem key (_cache s) = Some e
               /\ value e = v /\ now <= expires_at e.
Proof.
  unfold get, _is_expired. destruct (CACHE_ENABLED cfg); simpl;
    [|discriminate].
  destruct (getitem key (_cache s)) as [e|]; [|discriminate].
  destruct (Z.ltb_spec (expires_at e) now) as [Hlt|Hge]; simpl;
    [discriminate|].
  intros Hv. injection Hv as <-. split; [reflexivity|]. now exists e.
Qed.

Lemma getitem_move_to_end_other key k d :
  k <> key -> getitem k (move_to_end key d) = getitem k d.
Proof.
  intros Hne. unfold move_to_end.
  destruct (getitem key d); [now apply getitem_snoc_other | reflexivity].
Qed.

(** X3. Whatever its outcome, a [get] leaves every other key with the
    entry it had, stores no key that was not stored, and does not change
    the [sets] and [evictions] counters. *)
Theorem get_frame cfg key now s :
  let s' := snd (get cfg key now s) in
  (forall k, k <> key -> getitem k (_cache s') = getitem k (_cache s))
  /\ (forall k, In k (keys (_cache s')) -> In k (keys (_cache s)))
  /\ sets (_stats s') = sets (_stats s)
  /\ evictions (_stats s') = evictions (_stats s).
Proof.
  unfold get. destruct (CACHE_ENABLED cfg); simpl; [|tauto].
  destruct (getitem key (_cache s)) as [e|] eqn:E; simpl; [|tauto].
  destruct (_is_expired now e); simpl.
  - repeat split.
    + intros k Hne. now apply getitem_delitem_other.
    + intros k Hin. now apply In_keys_delitem in Hin.
  - repeat split.
    + intros k Hne. now apply getitem_move_to_end_other.
    + intros k. unfold move_to_end. rewrite E. unfold keys.
      rewrite map_app, in_app_iff. simpl. intros [H|[<-|[]]].
      * now apply In_keys_delitem in H.
      * apply contains_true. unfold contains. now rewrite E.
Qed.

(** X4. [delete] removes the key and nothing else: afterwards the key is
    absent, so a [get] of it misses; every other key keeps its entry; the
    counters are untouched; and for an absent key the state is returned
    as it was. *)
Theorem delete_removes_only_key key s :
  let s' := delete key s in
  getitem key (_cache s') = None
  /\ (forall cfg now, fst (get cfg key now s') = None)
  /\ (forall k, k <> key -> getitem k (_cache s') = getitem k (_cache s))
  /\ _stats s' = _stats s
  /\ (~ In key (keys (_cache s)) -> s' = s).
Proof.
  assert (Hgone : getitem key (_cache (delete key s)) = None).
  { unfold delete, contains.
    destruct (getitem key (_cache s)) eqn:E; simpl;
      [apply getitem_delitem_same | exact E]. }
  simpl. split; [exact Hgone|]. split; [|split; [|split]].
  - intros cfg now. unfold get. rewrite Hgone.
    now destruct (CACHE_ENABLED cfg).
  - intros k Hne. unfold delete.
    destruct (contains key (_cache s)); simpl;
      [now apply getitem_delitem_other | reflexivity].
  - unfold delete. now destruct (contains key (_cache s)).
  - intros Hk. apply contains_false in Hk. unfold delete. now rewrite Hk.
Qed.

Lemma delitem_idem key d : delitem key (delitem key d) = delitem key d.
Proof. apply delitem_absent. rewrite In_keys_delitem. tauto. Qed.

(** X5. The last write wins: setting a key twice in a row leaves the same
    store, entry order included, and the same eviction counter as the
    second [set] alone. *)
Theorem set_last_write_wins cfg key (v1 v2 : V) ttl1 ttl2 a1 b1 a2 b2 s :
  let twice := set cfg key v2 ttl2 a2 b2 (set cfg key v1 ttl1 a1 b1 s) in
  let once := set cfg key v2 ttl2 a2 b2 s in
  _cache twice = _cache once
  /\ evictions (_stats twice) = evictions (_stats once).
Proof.
  destruct (CACHE_ENABLED cfg) eqn:En.
  - simpl. rewrite (set_enabled cfg key v1) by exact En.
    rewrite !(set_enabled cfg key v2) by exact En.
    rewrite before_insert_present.
    + simpl. rewrite delitem_app, delitem_idem. simpl.
      rewrite String.eqb_refl, app_nil_r. tauto.
    + simpl. unfold keys. rewrite map_app, in_app_iff. simpl. tauto.
  - unfold set. rewrite En. simpl. tauto.
Qed.

Ltac by_call o :=
  destruct o as [key now|key v ttl t1 t2|key| |clk|clk|now| ]; simpl.

Lemma before_insert_sets_evictions cfg key s :
  sets (_stats (before_insert cfg key s)) = sets (_stats s)
  /\ evictions (_stats (before_insert cfg key s))
     = evictions (_stats s)
       + (if negb (contains key (_cache s))
             && (MAX_CACHE_SIZE cfg <=? len (_cache s))
             && negb (Nat.eqb (length (_cache s)) 0)
          then 1 else 0).
Proof.
  unfold before_insert, _evict_lru.
  destruct (negb (contains key (_cache s))
            && (MAX_CACHE_SIZE cfg <=? len (_cache s))); simpl; [|lia].
  destruct (_cache s) as [|kv rest]; simpl; lia.
Qed.

(** What one call other than [reset_stats] adds to [sets] and
    [evictions]. *)
Lemma step_sets_evictions cfg s (o : op V) :
  is_reset o = false ->
  sets (_stats (step cfg s o))
    = sets (_stats s) + (if is_stored_set cfg s o then 1 else 0)
  /\ evictions (_stats (step cfg s o))
    = evictions (_stats s) + (if is_evicting_set cfg s o then 1 else 0).
Proof.
  by_call o; intros Hr; try discriminate; try (split; lia).
  - unfold get. destruct (CACHE_ENABLED cfg); simpl; [|lia].
    destruct (getitem key (_cache s)) as [e|]; simpl; [|lia].
    destruct (_is_expired now e); simpl; lia.
  - destruct (CACHE_ENABLED cfg) eqn:En.
    + rewrite set_enabled by exact En. simpl.
      destruct (before_insert_sets_evictions cfg key s) as [Hs He].
      rewrite Hs, He. tauto.
    + unfold set. rewrite En. simpl. lia.
  - unfold delete. destruct (contains key (_cache s)); simpl; lia.
Qed.

Lemma run_sets_evictions cfg (ops : list (op V)) s :
  no_reset ops = true ->
  sets (_stats (run cfg ops s))
    = sets (_stats s) + count_calls cfg (is_stored_set cfg) ops s
  /\ evictions (_stats (run cfg ops s))
    = evictions (_stats s) + count_calls cfg (is_evicting_set cfg) ops s.
Proof.
  unfold no_reset. revert s.
  induction ops as [|o ops IH]; intros s; simpl; [lia|].
  intros Hall. apply andb_true_iff in Hall as [Ho Hall].
  apply negb_true_iff in Ho.
  destruct (IH (step cfg s o) Hall) as [IH1 IH2].
  destruct (step_sets_evictions cfg s o Ho) as [S1 S2]. lia.
Qed.

(** X6. Only [reset_stats] lowers a counter: over any history that does
    not call it, none of [hits], [misses], [evictions] and [sets] ever
    decreases. *)
Theorem counters_never_decrease cfg (ops : list (op V)) s :
  no_reset ops = true ->
  stats_le (_stats s) (_stats (run cfg ops s)).
Proof.
  intros Hall.
  destruct (run_hits_misses cfg ops s Hall) as [Hh Hm].
  destruct (run_sets_evictions cfg ops s Hall) as [Hs He].
  pose proof (count_calls_nonneg cfg (is_hit cfg) ops s).
  pose proof (count_calls_nonneg cfg (is_recorded_miss cfg) ops s).
  pose proof (count_calls_nonneg cfg (is_stored_set cfg) ops s).
  pose proof (count_calls_nonneg cfg (is_evicting_set cfg) ops s).
  unfold stats_le. lia.
Qed.

(** X7. After a history without [reset_stats] on a new cache, [sets] is
    the number of [set] calls made with caching enabled, inserts and
    overwrites alike, and [evictions] is the number of those calls that
    found their key absent and a non-empty store at capacity. *)
Theorem sets_and_evictions_count cfg (ops : list (op V)) :
  no_reset ops = true ->
  sets (_stats (run cfg ops init))
    = count_calls cfg (is_stored_set cfg) ops init
  /\ evictions (_stats (run cfg ops init))
    = count_calls cfg (is_evicting_set cfg) ops init.
Proof.
  intros Hall. destruct (run_sets_evictions cfg ops init Hall) as [Hs He].
  simpl in Hs, He. lia.
Qed.

(** The entries a call adds are paid for by [sets]. *)
Lemma step_len cfg s (o : op V) :
  len (_cache (step cfg s o)) + (if is_evicting_set cfg s o then 1 else 0)
  <= len (_cache s) + (if is_stored_set cfg s o then 1 else 0).
Proof.
  unfold len. by_call o; try lia.
  - unfold get. destruct (CACHE_ENABLED cfg); simpl; [|lia].
    destruct (getitem key (_cache s)) as [e|]; simpl; [|lia].
    destruct (_is_expired now e); simpl.
    + pose proof (length_delitem key (_cache s)). lia.
    + pose proof (length_move_to_end key (_cache s)). lia.
  - destruct (CACHE_ENABLED cfg) eqn:En; simpl.
    + rewrite set_enabled by exact En. simpl. rewrite length_app. simpl.
      destruct (contains key (_cache s)) eqn:Hk; simpl.
      * apply contains_true in Hk.
        rewrite before_insert_present by exact Hk.
        pose proof (length_delitem_present key (_cache s) Hk). lia.
      * pose proof (length_delitem key (_cache (before_insert cfg key s)))
          as Hd. revert Hd. unfold before_insert, _evict_lru. rewrite Hk.
        simpl. unfold len.
        destruct (MAX_CACHE_SIZE cfg <=? Z.of_nat (length (_cache s)));
          simpl; [|lia].
        destruct (_cache s) as [|kv rest] eqn:E;
          cbn -[Z.of_nat Z.add]; rewrite ?E; cbn -[Z.of_nat Z.add]; lia.
    + unfold set. rewrite En. simpl. lia.
  - unfold delete. destruct (contains key (_cache s)); simpl; [|lia].
    pose proof (length_delitem key (_cache s)). lia.
  - pose proof (length_delete_all (expired_keys clk (_cache s)) (_cache s)).
    lia.
  - pose proof (length_delete_all (expired_keys clk (_cache s)) (_cache s)).
    lia.
Qed.

Lemma run_len cfg (ops : list (op V)) s :
  len (_cache (run cfg ops s))
    + count_calls cfg (is_evicting_set cfg) ops s
  <= len (_cache s) + count_calls cfg (is_stored_set cfg) ops s.
Proof.
  revert s. induction ops as [|o ops IH]; intros s; simpl; [lia|].
  specialize (IH (step cfg s o)). pose proof (step_len cfg s o). lia.
Qed.

(** X8. After a history without [reset_stats] on a new cache, the number
    of stored entries plus the number of evictions is at most the number
    of sets: every stored or evicted entry was written by a counted
    [set]. *)
Theorem stored_and_evicted_within_sets cfg (ops : list (op V)) :
  no_reset ops = true ->
  let s := run cfg ops init in
  len (_cache s) + evictions (_stats s) <= sets (_stats s)
  /\ 0 <= evictions (_stats s).
Proof.
  intros Hall. destruct (run_sets_evictions cfg ops init Hall) as [Hs He].
  pose proof (run_len cfg ops init) as Hl.
  pose proof (count_calls_nonneg cfg (is_evicting_set cfg) ops init).
  simpl in *. unfold len in *. simpl in Hl. lia.
Qed.

(** X9. The store never depends on the counters: two states with the
    same store go, under the same history, to states with the same store,
    and every [get] returns the same result in both.  In particular a
    [reset_stats] put anywhere in a history changes neither the stored
    entries nor any result. *)
Theorem store_independent_of_counters cfg (ops : list (op V)) s1 s2 :
  _cache s1 = _cache s2 ->
  _cache (run cfg ops s1) = _cache (run cfg ops s2)
  /\ forall key now,
       fst (get cfg key now (run cfg ops s1))
       = fst (get cfg key now (run cfg ops s2)).
Proof.
  intros H0.
  assert (Hstep : forall (o : op V) a b,
            _cache a = _cache b ->
            _cache (step cfg a o) = _cache (step cfg b o)).
  { intros o [c st] [c' st'] Hc. simpl in Hc. subst c'.
    by_call o; try reflexivity.
    - unfold get. simpl. destruct (CACHE_ENABLED cfg); simpl; [|reflexivity].
      destruct (getitem key c) as [e|]; [|reflexivity].
      now destruct (_is_expired now e).
    - unfold set, _evict_lru. simpl.
      destruct (CACHE_ENABLED cfg); simpl; [|reflexivity].
      destruct (negb (contains key c) && (MAX_CACHE_SIZE cfg <=? len c));
        [|reflexivity].
      now destruct c.
    - unfold delete. simpl. now destruct (contains key c). }
  assert (Hrun : _cache (run cfg ops s1) = _cache (run cfg ops s2)).
  { revert s1 s2 H0. induction ops as [|o ops IH]; intros a b Hab;
      [exact Hab|]. simpl. apply IH. now apply Hstep. }
  split; [exact Hrun|]. intros key now. unfold get. rewrite Hrun.
  destruct (CACHE_ENABLED cfg); simpl; [|reflexivity].
  destruct (getitem key (_cache (run cfg ops s2))) as [e|]; [|reflexivity].
  now destruct (_is_expired now e).
Qed.

(** X10. Apart from replacing the entry of its own key, a [set] removes at
    most the front entry: every entry behind the front one survives, and
    the front entry survives too when the key is already present or the
    store is below the capacity. *)
Theorem set_removes_at_most_front cfg key (v : V) ttl t1 t2 s kv0 rest :
  _cache s = kv0 :: rest ->
  let s' := set cfg key v ttl t1 t2 s in
  (forall kv, In kv rest -> fst kv <> key -> In kv (_cache s'))
  /\ (In key (keys (_cache s)) \/ len (_cache s) < MAX_CACHE_SIZE cfg ->
      fst kv0 <> key -> In kv0 (_cache s')).
Proof.
  intros Hc. destruct (CACHE_ENABLED cfg) eqn:En.
  - simpl. rewrite set_enabled by exact En. simpl. split.
    + intros [k e] Hin Hne. apply in_app_iff. left. apply In_delitem.
      split; [exact Hne|]. unfold before_insert, _evict_lru.
      destruct (negb (contains key (_cache s))
                && (MAX_CACHE_SIZE cfg <=? len (_cache s)));
        rewrite Hc; simpl; [exact Hin | now right].
    + intros Hroom Hne. apply in_app_iff. left. destruct kv0 as [k e].
      apply In_delitem. split; [exact Hne|].
      destruct Hroom as [Hin|Hlt].
      * rewrite before_insert_present by exact Hin. rewrite Hc. now left.
      * rewrite before_insert_room by exact Hlt. rewrite Hc. now left.
  - unfold set. rewrite En. simpl. rewrite Hc. split.
    + intros kv Hin _. now right.
    + intros _ _. now left.
Qed.

Lemma expired_keys_frozen now d :
  expired_keys (frozen now) d = keys (filter (past now) d).
Proof.
  unfold expired_keys. apply expired_keys_from_past with (hi := now).
  - intros j. unfold frozen. lia.
  - apply Forall_forall. intros kv _. lia.
Qed.

Lemma filter_past_not_past now d :
  filter (past now) (filter (not_past now) d) = [].
Proof.
  induction d as [|kv r IH]; simpl; [reflexivity|].
  unfold not_past at 1. destruct (past now kv) eqn:E; simpl; [exact IH|].
  now rewrite E.
Qed.

Lemma filter_twice {B : Type} (p : B -> bool) (l : list B) :
  filter p (filter p l) = filter p l.
Proof.
  induction l as [|x l IH]; simpl; [reflexivity|].
  destruct (p x) eqn:E; simpl; rewrite ?E, IH; reflexivity.
Qed.

(** One sweep with the clock standing at [now]. *)
Lemma sweep_frozen now s :
  wf (_cache s) ->
  cleanup_expired (frozen now) s =
  (Z.of_nat (length (filter (past now) (_cache s))),
   with_cache s (filter (not_past now) (_cache s))).
Proof.
  intros Hwf. unfold cleanup_expired. rewrite expired_keys_frozen.
  rewrite delete_all_keys_filter by exact Hwf.
  unfold keys. now rewrite length_map.
Qed.

Lemma wf_filter (p : string * entry V -> bool) d : wf d -> wf (filter p d).
Proof.
  unfold wf, keys. induction d as [|[k e] r IH]; simpl; intros Hnd;
    [constructor|].
  inversion Hnd as [|? ? Hk Hr]; subst.
  destruct (p (k, e)); simpl; [|auto]. constructor; [|auto].
  intros Hin. apply Hk. apply in_map_iff in Hin as [kv [<- Hin]].
  apply filter_In in Hin as [Hin _]. now apply (in_map fst).
Qed.

(** X11. With unique keys and the clock standing at [now],
    [cleanup_expired] leaves a store with no expired entry that still
    holds every live entry; a second sweep at the same instant returns 0
    and changes nothing, and [size] then returns the number of stored
    entries and changes nothing either. *)
Theorem sweep_is_idempotent now s :
  wf (_cache s) ->
  let s' := snd (cleanup_expired (frozen now) s) in
  Forall (live now) (_cache s')
  /\ (forall kv, In kv (_cache s) -> live now kv -> In kv (_cache s'))
  /\ cleanup_expired (frozen now) s' = (0, s')
  /\ size (frozen now) s' = (len (_cache s'), s').
Proof.
  intros Hwf. rewrite (sweep_frozen now s Hwf). simpl.
  assert (Hwf' : wf (filter (not_past now) (_cache s)))
    by now apply wf_filter.
  split; [|split; [|split]].
  - apply Forall_forall. intros kv Hin. apply filter_In in Hin as [_ Hp].
    unfold not_past, past in Hp. unfold live, _is_expired.
    now apply negb_true_iff in Hp.
  - intros kv Hin Hlive. apply filter_In. split; [exact Hin|].
    unfold not_past, past. unfold live, _is_expired in Hlive.
    now rewrite Hlive.
  - rewrite sweep_frozen by exact Hwf'. simpl.
    rewrite filter_past_not_past. simpl. unfold with_cache. simpl.
    f_equal. f_equal. apply filter_twice.
  - unfold size. simpl. rewrite expired_keys_frozen.
    now rewrite filter_past_not_past.
Qed.

Lemma In_expired_keys_from clk i d k :
  In k (expired_keys_from clk i d) -> In k (keys d).
Proof.
  revert i. induction d as [|[k0 e] r IH]; simpl; intros i; [tauto|].
  destruct (_is_expired (clk i) e); simpl; intros H.
  - destruct H as [H|H]; [now left | right; eauto].
  - right. eauto.
Qed.

Lemma key_in_false ks k : key_in ks k = false <-> ~ In k ks.
Proof.
  rewrite <- key_in_true. destruct (key_in ks k); intuition congruence.
Qed.

(** In a store with unique keys the scan selects each key once, so the
    deletion removes as many entries as keys were selected. *)
Lemma length_selected clk i d :
  wf d ->
  length (filter (fun kv => key_in (expired_keys_from clk i d) (fst kv)) d)
  = length (expired_keys_from clk i d).
Proof.
  unfold wf. revert i. induction d as [|[k e] r IH]; simpl; intros i Hnd;
    [reflexivity|].
  inversion Hnd as [|? ? Hk Hr]; subst.
  assert (Hout : ~ In k (expired_keys_from clk (S i) r)).
  { intros H. apply Hk. now apply In_expired_keys_from in H. }
  destruct (_is_expired (clk i) e); simpl.
  - rewrite String.eqb_refl. simpl. f_equal. rewrite <- (IH (S i) Hr).
    f_equal. apply filter_ext_in. intros [k' e'] Hin. simpl.
    destruct (String.eqb_spec k' k) as [->|Hne]; [|reflexivity].
    exfalso. apply Hk. now apply (in_map fst) in Hin.
  - apply key_in_false in Hout. rewrite Hout. now apply IH.
Qed.

(** X12. On a store with unique keys, [size] and [cleanup_expired] given
    the same clock readings leave the same state, and their results add
    up to the number of entries stored before: [size] counts what the
    sweep keeps.  So [size] never exceeds the [size] figure of
    [get_stats], which counts expired entries too. *)
Theorem size_counts_what_sweep_keeps clk s :
  wf (_cache s) ->
  snd (size clk s) = snd (cleanup_expired clk s)
  /\ fst (size clk s) + fst (cleanup_expired clk s) = len (_cache s)
  /\ (forall cfg now, fst (size clk s) <= size_ (get_stats cfg now s)).
Proof.
  intros Hwf. unfold size, cleanup_expired, len. simpl.
  split; [reflexivity|].
  assert (Hsum : (length (delete_all (expired_keys clk (_cache s)) (_cache s))
                  + length (expired_keys clk (_cache s))
                  = length (_cache s))%nat).
  { rewrite delete_all_filter. unfold expired_keys.
    rewrite <- (length_selected clk 0 (_cache s) Hwf).
    rewrite Nat.add_comm. apply filter_partition_length. }
  split; [lia|]. intros _ _. unfold len. lia.
Qed.

Lemma filter_filter_implied {B : Type} (p q : B -> bool) (l : list B) :
  (forall x, q x = true -> p x = true) ->
  filter q (filter p l) = filter q l.
Proof.
  intros Himp. induction l as [|x l IH]; simpl; [reflexivity|].
  destruct (p x) eqn:Ep; simpl.
  - now rewrite IH.
  - destruct (q x) eqn:Eq; [|exact IH].
    rewrite (Himp x Eq) in Ep. discriminate.
Qed.

Lemma filter_not_past_twice n1 n2 d :
  n1 <= n2 ->
  filter (not_past (V:=V) n2) (filter (not_past n1) d)
  = filter (not_past n2) d.
Proof.
  intros Hle. apply filter_filter_implied. intros kv.
  unfold not_past, past. rewrite !negb_true_iff, !Z.ltb_ge. lia.
Qed.

(** X13. Sweeps compose: on a store with unique keys, a sweep with the
    clock at [n1] followed by a sweep with the clock at a later [n2]
    leaves the state that the second sweep alone leaves, and the two
    counts add up to the count of the second sweep alone.  The periodic
    task therefore removes in total what one sweep at the latest instant
    removes. *)
Theorem later_sweep_subsumes_earlier n1 n2 s :
  wf (_cache s) ->
  n1 <= n2 ->
  let first := cleanup_expired (frozen n1) s in
  let second := cleanup_expired (frozen n2) (snd first) in
  snd second = snd (cleanup_expired (frozen n2) s)
  /\ fst first + fst second = fst (cleanup_expired (frozen n2) s).
Proof.
  intros Hwf Hle.
  assert (Hwf' : wf (filter (not_past n1) (_cache s)))
    by now apply wf_filter.
  cbv zeta. rewrite (sweep_frozen n1 s Hwf), (sweep_frozen n2 s Hwf).
  cbn [fst snd]. rewrite sweep_frozen by exact Hwf'.
  cbn [fst snd with_cache _cache _stats].
  rewrite (filter_not_past_twice n1 n2 (_cache s) Hle).
  split; [reflexivity|].
  pose proof (filter_partition_length (past n1) (_cache s)) as P1.
  pose proof (filter_partition_length (past n2) (_cache s)) as P2.
  pose proof (filter_partition_length (past n2)
                (filter (not_past n1) (_cache s))) as P3.
  fold (not_past (V:=V) n1) in P1. fold (not_past (V:=V) n2) in P2, P3.
  rewrite (filter_not_past_twice n1 n2 (_cache s) Hle) in P3. lia.
Qed.

End More.

(** *** The statements at concrete inputs *)

Import Scenario Samples.

Local Open Scope string_scope.

Lemma disabled_cache_stays_new_witness :
  run cfg_off full_story init = init.
Proof.
  destruct (disabled_cache_stays_new cfg_off full_story) as [H _];
    [reflexivity | exact H].
Defined.

Lemma get_never_stale_witness :
  exists e, getitem "b" (_cache warm) = Some e
            /\ value e = "Y" /\ 10 <= expires_at e.
Proof.
  destruct (get_never_stale cfg2 "b" 10 warm "Y") as [_ H];
    [reflexivity | exact H].
Defined.

Lemma counters_never_decrease_witness :
  stats_le (_stats warm) (_stats (run cfg2 two_more warm)).
Proof. apply (counters_never_decrease cfg2 two_more warm). reflexivity. Defined.

Lemma sets_and_evictions_count_witness :
  sets (_stats (run cfg2 full_story init)) = 3
  /\ evictions (_stats (run cfg2 full_story init)) = 1.
Proof.
  destruct (sets_and_evictions_count cfg2 full_story) as [Hs He];
    [reflexivity|].
  rewrite Hs, He. split; reflexivity.
Defined.

Lemma stored_and_evicted_within_sets_witness :
  len (_cache (run cfg2 full_story init))
    + evictions (_stats (run cfg2 full_story init))
  <= sets (_stats (run cfg2 full_story init)).
Proof.
  destruct (stored_and_evicted_within_sets cfg2 full_story) as [H _];
    [reflexivity | exact H].
Defined.

Lemma store_independent_of_counters_witness :
  _cache (run cfg2 two_more warm_then_reset) = _cache (run cfg2 two_more warm).
Proof.
  destruct (store_independent_of_counters cfg2 two_more warm_then_reset warm)
    as [H _]; [reflexivity | exact H].
Defined.

Lemma set_removes_at_most_front_witness :
  In ("a", {| value := "X"; expires_at := 1000; created_at := 0 |})
     (_cache (set cfg2 "c" "Z" None 3 3 warm)).
Proof.
  destruct (set_removes_at_most_front cfg2 "c" "Z" None 3 3 warm
              ("b", {| value := "Y"; expires_at := 1001; created_at := 1 |})
              [("a", {| value := "X"; expires_at := 1000; created_at := 0 |})])
    as [H _]; [reflexivity|].
  apply H; [now left | discriminate].
Defined.

Lemma sweep_is_idempotent_witness :
  cleanup_expired (frozen 10) (snd (cleanup_expired (frozen 10) stale_behind))
  = (0, snd (cleanup_expired (frozen 10) stale_behind)).
Proof.
  destruct (sweep_is_idempotent 10 stale_behind) as (_ & _ & H & _).
  - repeat constructor; simpl; intuition discriminate.
  - exact H.
Defined.

Lemma size_counts_what_sweep_keeps_witness :
  fst (size (frozen 10) stale_behind)
    + fst (cleanup_expired (frozen 10) stale_behind)
  = 2.
Proof.
  destruct (size_counts_what_sweep_keeps (frozen 10) stale_behind)
    as (_ & H & _).
  - repeat constructor; simpl; intuition discriminate.
  - rewrite H. reflexivity.
Defined.

Lemma later_sweep_subsumes_earlier_witness :
  snd (cleanup_expired (frozen 2000)
         (snd (cleanup_expired (frozen 10) stale_behind)))
  = snd (cleanup_expired (frozen 2000) stale_behind).
Proof.
  destruct (later_sweep_subsumes_earlier 10 2000 stale_behind) as [H _].
  - repeat constructor; simpl; intuition discriminate.
  - lia.
  - exact H.
Defined.

End LRUCacheMore.

(** ** Properties of the text clean-up *)

Module TextProcessorFacts.

Import TextProcessor.

Local Open Scope N_scope.

Implicit Types (text t u w : str) (c : N).

(** Induction for functions that look two characters ahead. *)
Lemma two_step_ind (P : str -> Prop) :
  P [] ->
  (forall c, P [c]) ->
  (forall c c' r, P r -> P (c' :: r) -> P (c :: c' :: r)) ->
  forall t, P t.
Proof.
  intros H0 H1 H2 t.
  assert (H : P t /\ forall c, P (c :: t)).
  { induction t as [|c' r [IHr IHc]]; [split; auto|].
    split; [apply IHc|]. intros c. apply H2; auto. }
  apply H.
Qed.

(** *** Line breaks *)

Lemma replace_cr_no_cr t : ~ In CR (replace_cr t).
Proof.
  unfold replace_cr. intros H. apply in_map_iff in H as [c [Hc _]].
  destruct (N.eqb_spec c CR) as [E|Hne]; [discriminate Hc | congruence].
Qed.

Lemma replace_cr_id t : ~ In CR t -> replace_cr t = t.
Proof.
  unfold replace_cr. induction t as [|c r IH]; simpl; [reflexivity|].
  intros H. destruct (N.eqb_spec c CR) as [->|Hne]; [tauto|].
  f_equal. apply IH. tauto.
Qed.

Lemma replace_crlf_cons c c' r :
  replace_crlf (c :: c' :: r) =
  if (c =? CR) && (c' =? LF) then LF :: replace_crlf r
  else c :: replace_crlf (c' :: r).
Proof. reflexivity. Qed.

Lemma ink_cons c t :
  ink (c :: t) = if is_space c then ink t else c :: ink t.
Proof. unfold ink. simpl. now destruct (is_space c). Qed.

Lemma replace_crlf_id t : ~ In CR t -> replace_crlf t = t.
Proof.
  induction t as [| |c c' r IHr IHc] using two_step_ind; try reflexivity.
  intros H. rewrite replace_crlf_cons.
  destruct (N.eqb_spec c CR) as [E|_]; [exfalso; apply H; now left|].
  simpl andb. cbv iota. f_equal. apply IHc. intros Hin. apply H. now right.
Qed.

Lemma length_replace_crlf t : (length (replace_crlf t) <= length t)%nat.
Proof.
  induction t as [| |c c' r IHr IHc] using two_step_ind;
    [simpl; lia | simpl; lia |].
  rewrite replace_crlf_cons.
  destruct ((c =? CR) && (c' =? LF)); cbn [length] in *; lia.
Qed.

Lemma ink_replace_crlf t : ink (replace_crlf t) = ink t.
Proof.
  induction t as [| |c c' r IHr IHc] using two_step_ind; try reflexivity.
  rewrite replace_crlf_cons.
  destruct (N.eqb_spec c CR) as [E|Hc]; simpl andb; cbv iota.
  - destruct (N.eqb_spec c' LF) as [E'|Hc'].
    + rewrite E, E', !ink_cons. simpl. exact IHr.
    + rewrite E, !(ink_cons CR). simpl. exact IHc.
  - rewrite !(ink_cons c). now rewrite IHc.
Qed.

Lemma ink_replace_cr t : ink (replace_cr t) = ink t.
Proof.
  unfold ink, replace_cr. induction t as [|c r IH]; simpl; [reflexivity|].
  destruct (N.eqb_spec c CR) as [->|Hc]; simpl; now rewrite IH.
Qed.

(** X14. [normalize_line_breaks] returns a text without carriage returns
    that is no longer than its argument; a text without carriage returns
    is returned as it is, so normalising twice is the same as once. *)
Theorem normalize_line_breaks_removes_cr t :
  ~ In CR (normalize_line_breaks t)
  /\ (length (normalize_line_breaks t) <= length t)%nat
  /\ (~ In CR t -> normalize_line_breaks t = t)
  /\ normalize_line_breaks (normalize_line_breaks t)
     = normalize_line_breaks t.
Proof.
  assert (Hid : forall u, ~ In CR u -> normalize_line_breaks u = u).
  { intros u Hu. unfold normalize_line_breaks.
    now rewrite replace_crlf_id, replace_cr_id. }
  assert (Hno : ~ In CR (normalize_line_breaks t)) by apply replace_cr_no_cr.
  split; [exact Hno|]. split; [|split; [apply Hid | now apply Hid]].
  unfold normalize_line_breaks, replace_cr. rewrite length_map.
  apply length_replace_crlf.
Qed.

(** *** The unfolding equations of the scans *)

Lemma collapse_spaces_cons c r :
  collapse_spaces (c :: r) =
  if pair_at_head double_space c r then collapse_spaces r
  else c :: collapse_spaces r.
Proof. destruct r; reflexivity. Qed.

Lemma limit_newlines_cons c r :
  limit_newlines (c :: r) =
  if (c =? LF) && starts_with_two_lf r then limit_newlines r
  else c :: limit_newlines r.
Proof.
  destruct r as [|c1 [|c2 r]]; simpl; rewrite ?andb_false_r;
    try reflexivity.
  now rewrite andb_assoc.
Qed.

Lemma has_pair_cons p c r :
  has_pair p (c :: r) = pair_at_head p c r || has_pair p r.
Proof. destruct r; reflexivity. Qed.

Lemma has_triple_newline_cons c r :
  has_triple_newline (c :: r) =
  ((c =? LF) && starts_with_two_lf r) || has_triple_newline r.
Proof.
  destruct r as [|c1 [|c2 r]]; simpl; rewrite ?andb_false_r;
    try reflexivity.
  now rewrite andb_assoc.
Qed.

Lemma pair_at_head_hd p c t u :
  hd_error t = hd_error u -> pair_at_head p c t = pair_at_head p c u.
Proof. destruct t, u; simpl; congruence. Qed.

Lemma starts_with_two_lf_cons c r :
  starts_with_two_lf (c :: r) =
  (c =? LF) && match hd_error r with Some c' => c' =? LF | None => false end.
Proof. destruct r; simpl; [now rewrite andb_false_r | reflexivity]. Qed.

Lemma punct_not_space c : is_punct c = true -> is_space c = false.
Proof.
  unfold is_punct. rewrite !orb_true_iff, !N.eqb_eq.
  intros [[[[[->| ->]| ->]| ->]| ->]| ->]; reflexivity.
Qed.

Lemma space_is_space : is_space SPACE = true.
Proof. reflexivity. Qed.

Lemma lf_is_space : is_space LF = true.
Proof. reflexivity. Qed.

(** *** Heads are kept *)

Lemma collapse_spaces_hd t : hd_error (collapse_spaces t) = hd_error t.
Proof.
  induction t as [|c r IH]; [reflexivity|]. rewrite collapse_spaces_cons.
  destruct (pair_at_head double_space c r) eqn:E; [|reflexivity].
  rewrite IH. destruct r as [|c' r']; [discriminate|]. simpl in *.
  unfold double_space in E. apply andb_true_iff in E as [E1 E2].
  apply N.eqb_eq in E1, E2. congruence.
Qed.

Lemma limit_newlines_hd t : hd_error (limit_newlines t) = hd_error t.
Proof.
  induction t as [|c r IH]; [reflexivity|]. rewrite limit_newlines_cons.
  destruct ((c =? LF) && starts_with_two_lf r) eqn:E; [|reflexivity].
  rewrite IH. apply andb_true_iff in E as [E1 E2]. apply N.eqb_eq in E1.
  destruct r as [|c1 r1]; [discriminate|]. rewrite starts_with_two_lf_cons in E2.
  apply andb_true_iff in E2 as [E2 _]. apply N.eqb_eq in E2. simpl.
  congruence.
Qed.

Lemma limit_newlines_two_lf t :
  starts_with_two_lf (limit_newlines t) = true -> starts_with_two_lf t = true.
Proof.
  destruct t as [|c r]; [discriminate|]. rewrite limit_newlines_cons.
  destruct ((c =? LF) && starts_with_two_lf r) eqn:E.
  - intros _. apply andb_true_iff in E as [E1 E2].
    rewrite starts_with_two_lf_cons, E1. simpl.
    destruct r as [|c1 r1]; [discriminate|].
    rewrite starts_with_two_lf_cons in E2.
    apply andb_true_iff in E2 as [E2 _]. exact E2.
  - rewrite !starts_with_two_lf_cons. now rewrite limit_newlines_hd.
Qed.

(** *** The scan that removes whitespace before punctuation *)

Lemma unspace_punct_keeps t :
  before_punct t = false ->
  unspace_punct t = match t with [] => [] | c :: r => c :: unspace_punct r end.
Proof.
  destruct t as [|c r]; [reflexivity|]. simpl.
  destruct (is_punct c); [discriminate|].
  destruct (is_space c); [|reflexivity]. now intros ->.
Qed.

Lemma unspace_punct_before t :
  before_punct t = true ->
  exists p u, unspace_punct t = p :: u /\ is_punct p = true.
Proof.
  induction t as [|c r IH]; [discriminate|]. simpl.
  destruct (is_punct c) eqn:Hp.
  - intros _. rewrite (punct_not_space c Hp). simpl. now exists c, (unspace_punct r).
  - destruct (is_space c); [|discriminate]. intros Hb. rewrite Hb. simpl.
    now apply IH.
Qed.

(** A first character that is no punctuation was the first character
    before. *)
Lemma unspace_punct_head t y u :
  unspace_punct t = y :: u -> is_punct y = false ->
  exists r, t = y :: r /\ u = unspace_punct r.
Proof.
  intros H Hy. destruct (before_punct t) eqn:Hb.
  - destruct (unspace_punct_before t Hb) as (p & u' & Hp & Hpp).
    rewrite Hp in H. injection H as -> ->. congruence.
  - rewrite (unspace_punct_keeps t Hb) in H.
    destruct t as [|c r]; [discriminate|]. injection H as -> <-.
    now exists r.
Qed.

Lemma unspace_punct_two_lf t :
  starts_with_two_lf (unspace_punct t) = true -> starts_with_two_lf t = true.
Proof.
  destruct (unspace_punct t) as [|y [|z u]] eqn:E; try discriminate.
  simpl. intros H. apply andb_true_iff in H as [Hy Hz].
  apply N.eqb_eq in Hy, Hz. subst y z.
  destruct (unspace_punct_head t LF (LF :: u) E eq_refl) as (r & -> & Hr).
  symmetry in Hr.
  destruct (unspace_punct_head r LF u Hr eq_refl) as (r' & -> & _).
  reflexivity.
Qed.

(** *** Each scan keeps what the earlier scans achieved *)

Lemma collapse_spaces_no_double t :
  has_pair double_space (collapse_spaces t) = false.
Proof.
  induction t as [|c r IH]; [reflexivity|]. rewrite collapse_spaces_cons.
  destruct (pair_at_head double_space c r) eqn:E; [exact IH|].
  rewrite has_pair_cons, IH, orb_false_r.
  rewrite (pair_at_head_hd _ _ _ r); [exact E | apply collapse_spaces_hd].
Qed.

Lemma limit_newlines_no_double t :
  has_pair double_space t = false ->
  has_pair double_space (limit_newlines t) = false.
Proof.
  induction t as [|c r IH]; [reflexivity|].
  rewrite has_pair_cons, limit_newlines_cons. intros H.
  apply orb_false_iff in H as [H1 H2].
  destruct ((c =? LF) && starts_with_two_lf r); [now apply IH|].
  rewrite has_pair_cons, (IH H2), orb_false_r.
  rewrite (pair_at_head_hd _ _ _ r); [exact H1 | apply limit_newlines_hd].
Qed.

Lemma limit_newlines_no_triple t :
  has_triple_newline (limit_newlines t) = false.
Proof.
  induction t as [|c r IH]; [reflexivity|]. rewrite limit_newlines_cons.
  destruct ((c =? LF) && starts_with_two_lf r) eqn:E; [exact IH|].
  rewrite has_triple_newline_cons, IH, orb_false_r.
  destruct (c =? LF); [|reflexivity]. simpl in *.
  destruct (starts_with_two_lf (limit_newlines r)) eqn:E2; [|reflexivity].
  apply limit_newlines_two_lf in E2. congruence.
Qed.

Lemma unspace_punct_no_pair p t :
  (forall a b, p a b = true -> is_punct b = false) ->
  has_pair p t = false -> has_pair p (unspace_punct t) = false.
Proof.
  intros Hp. induction t as [|c r IH]; [reflexivity|].
  rewrite has_pair_cons. intros H. apply orb_false_iff in H as [H1 H2].
  simpl. destruct (is_space c && before_punct r); [now apply IH|].
  rewrite has_pair_cons, (IH H2), orb_false_r.
  destruct (unspace_punct r) as [|y u] eqn:E; [reflexivity|]. simpl.
  destruct (p c y) eqn:Hcy; [|reflexivity].
  destruct (unspace_punct_head r y u E (Hp c y Hcy)) as (r' & -> & _).
  simpl in H1. congruence.
Qed.

Lemma unspace_punct_no_triple t :
  has_triple_newline t = false ->
  has_triple_newline (unspace_punct t) = false.
Proof.
  induction t as [|c r IH]; [reflexivity|].
  rewrite has_triple_newline_cons. intros H.
  apply orb_false_iff in H as [H1 H2].
  simpl. destruct (is_space c && before_punct r); [now apply IH|].
  rewrite has_triple_newline_cons, (IH H2), orb_false_r.
  destruct (c =? LF); [|reflexivity]. simpl in *.
  destruct (starts_with_two_lf (unspace_punct r)) eqn:E; [|reflexivity].
  apply unspace_punct_two_lf in E. congruence.
Qed.

Lemma unspace_punct_no_space_punct t :
  has_pair space_then_punct (unspace_punct t) = false.
Proof.
  induction t as [|c r IH]; [reflexivity|]. simpl.
  destruct (is_space c && before_punct r) eqn:E; [exact IH|].
  rewrite has_pair_cons, IH, orb_false_r.
  destruct (unspace_punct r) as [|y u] eqn:Er; [reflexivity|]. simpl.
  unfold space_then_punct.
  destruct (is_space c) eqn:Hc; [|reflexivity]. simpl in *.
  rewrite (unspace_punct_keeps r E) in Er.
  destruct r as [|c' r']; [discriminate|]. injection Er as <- _.
  simpl in E. now destruct (is_punct c').
Qed.

(** *** Stripping *)

Lemma lstrip_suffix t : exists w, t = w ++ lstrip t.
Proof.
  induction t as [|c r [w IH]]; [now exists []|]. simpl.
  destruct (is_space c); [|now exists []].
  exists (c :: w). simpl. now rewrite <- IH.
Qed.

Lemma rstrip_prefix t : exists w, t = rstrip t ++ w.
Proof.
  induction t as [|c r [w IH]]; [now exists []|]. simpl.
  destruct (rstrip r) as [|y u] eqn:E.
  - simpl in IH. subst w.
    destruct (is_space c); [now exists (c :: r) | now exists r].
  - exists w. simpl. f_equal. exact IH.
Qed.

Lemma has_pair_suffix p w t :
  has_pair p (w ++ t) = false -> has_pair p t = false.
Proof.
  induction w as [|c w IH]; [auto|]. simpl app. rewrite has_pair_cons.
  intros H. apply orb_false_iff in H as [_ H]. auto.
Qed.

Lemma has_pair_prefix p t w :
  has_pair p (t ++ w) = false -> has_pair p t = false.
Proof.
  induction t as [|c r IH]; [reflexivity|]. simpl app.
  rewrite !has_pair_cons. intros H. apply orb_false_iff in H as [H1 H2].
  rewrite (IH H2), orb_false_r. destruct r; [reflexivity | exact H1].
Qed.

Lemma has_triple_newline_suffix w t :
  has_triple_newline (w ++ t) = false -> has_triple_newline t = false.
Proof.
  induction w as [|c w IH]; [auto|]. simpl app.
  rewrite has_triple_newline_cons.
  intros H. apply orb_false_iff in H as [_ H]. auto.
Qed.

Lemma starts_with_two_lf_app t w :
  starts_with_two_lf t = true -> starts_with_two_lf (t ++ w) = true.
Proof. destruct t as [|c1 [|c2 r]]; simpl; auto; discriminate. Qed.

Lemma has_triple_newline_prefix t w :
  has_triple_newline (t ++ w) = false -> has_triple_newline t = false.
Proof.
  induction t as [|c r IH]; [reflexivity|]. simpl app.
  rewrite !has_triple_newline_cons. intros H.
  apply orb_false_iff in H as [H1 H2]. rewrite (IH H2), orb_false_r.
  destruct (c =? LF); [|reflexivity]. simpl in *.
  destruct (starts_with_two_lf r) eqn:E; [|reflexivity].
  now rewrite (starts_with_two_lf_app r w E) in H1.
Qed.

Lemma lstrip_starts t : starts_with_space (lstrip t) = false.
Proof.
  induction t as [|c r IH]; [reflexivity|]. simpl.
  destruct (is_space c) eqn:E; [exact IH | simpl; exact E].
Qed.

Lemma rstrip_starts t :
  starts_with_space t = false -> starts_with_space (rstrip t) = false.
Proof.
  destruct t as [|c r]; [reflexivity|]. simpl. intros Hc.
  destruct (rstrip r); [now rewrite Hc | exact Hc].
Qed.

Lemma ends_with_space_cons c t :
  t <> [] -> ends_with_space (c :: t) = ends_with_space t.
Proof.
  intros Hne. unfold ends_with_space. simpl.
  destruct (rev t) as [|a x] eqn:E; [|reflexivity].
  exfalso. apply Hne. apply (f_equal (@rev N)) in E.
  now rewrite rev_involutive in E.
Qed.

Lemma rstrip_ends t : ends_with_space (rstrip t) = false.
Proof.
  induction t as [|c r IH]; [reflexivity|]. simpl.
  destruct (rstrip r) as [|y u] eqn:E.
  - destruct (is_space c) eqn:Hc; [reflexivity|].
    unfold ends_with_space. simpl. exact Hc.
  - rewrite ends_with_space_cons by discriminate. exact IH.
Qed.

(** *** Texts the scans leave alone *)

Lemma collapse_spaces_id t :
  has_pair double_space t = false -> collapse_spaces t = t.
Proof.
  induction t as [|c r IH]; [reflexivity|].
  rewrite has_pair_cons, collapse_spaces_cons. intros H.
  apply orb_false_iff in H as [H1 H2]. rewrite H1. f_equal. auto.
Qed.

Lemma limit_newlines_id t :
  has_triple_newline t = false -> limit_newlines t = t.
Proof.
  induction t as [|c r IH]; [reflexivity|].
  rewrite has_triple_newline_cons, limit_newlines_cons. intros H.
  apply orb_false_iff in H as [H1 H2]. rewrite H1. f_equal. auto.
Qed.

Lemma before_punct_pair c t :
  is_space c = true -> before_punct t = true ->
  has_pair space_then_punct (c :: t) = true.
Proof.
  revert c. induction t as [|y r IH]; intros c Hc; [discriminate|].
  rewrite has_pair_cons. cbn [pair_at_head before_punct].
  unfold space_then_punct at 1. rewrite Hc. cbn [andb].
  destruct (is_punct y); [reflexivity|].
  destruct (is_space y) eqn:Hy; [|discriminate].
  intros Hb. now rewrite (IH y Hy Hb).
Qed.

Lemma unspace_punct_id t :
  has_pair space_then_punct t = false -> unspace_punct t = t.
Proof.
  induction t as [|c r IH]; [reflexivity|]. intros H.
  pose proof H as H'. rewrite has_pair_cons in H'.
  apply orb_false_iff in H' as [_ H2]. simpl.
  destruct (is_space c) eqn:Hc; simpl.
  - destruct (before_punct r) eqn:Hb.
    + rewrite (before_punct_pair c r Hc Hb) in H. discriminate.
    + f_equal. auto.
  - f_equal. auto.
Qed.

Lemma lstrip_id t : starts_with_space t = false -> lstrip t = t.
Proof. destruct t as [|c r]; [reflexivity|]. simpl. now intros ->. Qed.

Lemma rstrip_id t : ends_with_space t = false -> rstrip t = t.
Proof.
  induction t as [|c r IH]; [reflexivity|]. simpl.
  destruct r as [|c' r'].
  - unfold ends_with_space. simpl. now intros ->.
  - rewrite ends_with_space_cons by discriminate. intros H.
    now rewrite (IH H).
Qed.

(** *** The scans only delete whitespace *)

Lemma ink_collapse_spaces t : ink (collapse_spaces t) = ink t.
Proof.
  induction t as [|c r IH]; [reflexivity|]. rewrite collapse_spaces_cons.
  destruct (pair_at_head double_space c r) eqn:E.
  - rewrite IH, ink_cons. destruct r as [|c' r']; [discriminate|].
    simpl in E. unfold double_space in E.
    apply andb_true_iff in E as [E _]. apply N.eqb_eq in E. subst c.
    now rewrite space_is_space.
  - rewrite !ink_cons. now rewrite IH.
Qed.

Lemma ink_limit_newlines t : ink (limit_newlines t) = ink t.
Proof.
  induction t as [|c r IH]; [reflexivity|]. rewrite limit_newlines_cons.
  destruct ((c =? LF) && starts_with_two_lf r) eqn:E.
  - rewrite IH, ink_cons. apply andb_true_iff in E as [E _].
    apply N.eqb_eq in E. subst c. now rewrite lf_is_space.
  - rewrite !ink_cons. now rewrite IH.
Qed.

Lemma ink_unspace_punct t : ink (unspace_punct t) = ink t.
Proof.
  induction t as [|c r IH]; [reflexivity|]. cbn [unspace_punct].
  destruct (is_space c && before_punct r) eqn:E.
  - rewrite IH, ink_cons. apply andb_true_iff in E as [E _]. now rewrite E.
  - rewrite !ink_cons. now rewrite IH.
Qed.

Lemma ink_lstrip t : ink (lstrip t) = ink t.
Proof.
  induction t as [|c r IH]; [reflexivity|]. cbn [lstrip].
  destruct (is_space c) eqn:E; [|reflexivity].
  now rewrite IH, ink_cons, E.
Qed.

Lemma ink_rstrip t : ink (rstrip t) = ink t.
Proof.
  induction t as [|c r IH]; [reflexivity|]. cbn [rstrip]. rewrite ink_cons.
  destruct (rstrip r) as [|y u].
  - rewrite <- IH. destruct (is_space c) eqn:E; [reflexivity|].
    now rewrite ink_cons, E.
  - rewrite <- IH, ink_cons. reflexivity.
Qed.

Lemma length_collapse_spaces t :
  (length (collapse_spaces t) <= length t)%nat.
Proof.
  induction t as [|c r IH]; [reflexivity|]. rewrite collapse_spaces_cons.
  destruct (pair_at_head double_space c r); simpl; lia.
Qed.

Lemma length_limit_newlines t :
  (length (limit_newlines t) <= length t)%nat.
Proof.
  induction t as [|c r IH]; [reflexivity|]. rewrite limit_newlines_cons.
  destruct ((c =? LF) && starts_with_two_lf r); simpl; lia.
Qed.

Lemma length_unspace_punct t :
  (length (unspace_punct t) <= length t)%nat.
Proof.
  induction t as [|c r IH]; [reflexivity|]. simpl.
  destruct (is_space c && before_punct r); simpl; lia.
Qed.

Lemma length_strip t : (length (strip t) <= length t)%nat.
Proof.
  unfold strip. destruct (lstrip_suffix t) as [w Hw].
  destruct (rstrip_prefix (lstrip t)) as [w' Hw'].
  rewrite Hw at 2. rewrite Hw' at 2. rewrite !length_app. lia.
Qed.

Lemma clean_text_unfold t :
  clean_text t = strip (unspace_punct (limit_newlines (collapse_spaces t))).
Proof. destruct t; reflexivity. Qed.

Lemma tidy_nil : tidy [].
Proof. repeat split. Qed.

Lemma clean_text_shape t : tidy (clean_text t).
Proof.
  rewrite clean_text_unfold.
  set (u := unspace_punct (limit_newlines (collapse_spaces t))).
  assert (H1 : has_pair double_space u = false).
  { apply unspace_punct_no_pair.
    - intros a b H. unfold double_space in H.
      apply andb_true_iff in H as [_ H]. apply N.eqb_eq in H. now subst b.
    - apply limit_newlines_no_double, collapse_spaces_no_double. }
  assert (H2 : has_triple_newline u = false)
    by apply unspace_punct_no_triple, limit_newlines_no_triple.
  assert (H3 : has_pair space_then_punct u = false)
    by apply unspace_punct_no_space_punct.
  unfold strip. destruct (lstrip_suffix u) as [w Hw].
  destruct (rstrip_prefix (lstrip u)) as [w' Hw'].
  rewrite Hw in H1, H2, H3.
  apply has_pair_suffix in H1, H3. apply has_triple_newline_suffix in H2.
  rewrite Hw' in H1, H2, H3.
  apply has_pair_prefix in H1, H3. apply has_triple_newline_prefix in H2.
  repeat split; try assumption.
  - apply rstrip_starts, lstrip_starts.
  - apply rstrip_ends.
Qed.

Lemma tidy_clean_text t : tidy t -> clean_text t = t.
Proof.
  intros (H1 & H2 & H3 & H4 & H5). rewrite clean_text_unfold.
  rewrite collapse_spaces_id, limit_newlines_id, unspace_punct_id
    by assumption.
  unfold strip. rewrite lstrip_id by assumption. now apply rstrip_id.
Qed.

Lemma ink_clean_text t : ink (clean_text t) = ink t.
Proof.
  rewrite clean_text_unfold. unfold strip.
  now rewrite ink_rstrip, ink_lstrip, ink_unspace_punct, ink_limit_newlines,
    ink_collapse_spaces.
Qed.

Lemma ink_In c t : In c (ink t) <-> In c t /\ is_space c = false.
Proof.
  unfold ink. rewrite filter_In. now rewrite negb_true_iff.
Qed.

(** Every character of the result is a character of the text. *)
Lemma In_clean_text c t : In c (clean_text t) -> In c t.
Proof.
  rewrite clean_text_unfold. unfold strip. intros H.
  assert (H1 : forall v, In c (unspace_punct v) -> In c v).
  { induction v as [|a r IH]; simpl; [tauto|].
    destruct (is_space a && before_punct r); simpl; tauto. }
  assert (H2 : forall v, In c (limit_newlines v) -> In c v).
  { induction v as [|a r IH]; [tauto|]. rewrite limit_newlines_cons.
    destruct ((a =? LF) && starts_with_two_lf r); simpl; tauto. }
  assert (H3 : forall v, In c (collapse_spaces v) -> In c v).
  { induction v as [|a r IH]; [tauto|]. rewrite collapse_spaces_cons.
    destruct (pair_at_head double_space a r); simpl; tauto. }
  apply H3, H2, H1.
  set (a := unspace_punct (limit_newlines (collapse_spaces t))) in *.
  destruct (rstrip_prefix (lstrip a)) as [w' Hw'].
  destruct (lstrip_suffix a) as [w Hw].
  rewrite Hw, Hw', !in_app_iff. tauto.
Qed.

(** X15. The text [clean_text] returns never has two spaces in a row,
    three line feeds in a row, whitespace before one of the characters
    [.,!?;:], or whitespace at its start or end. *)
Theorem clean_text_is_tidy t : tidy (clean_text t).
Proof. apply clean_text_shape. Qed.

(** X16. The texts [clean_text] returns unchanged are exactly the texts
    of that shape; hence cleaning twice is the same as cleaning once, and
    so is running the whole [preprocess_text] pipeline twice. *)
Theorem clean_text_fixed_points t :
  (clean_text t = t <-> tidy t)
  /\ clean_text (clean_text t) = clean_text t
  /\ preprocess_text (preprocess_text t) = preprocess_text t.
Proof.
  split; [|split].
  - split; [intros <-; apply clean_text_shape | apply tidy_clean_text].
  - apply tidy_clean_text, clean_text_shape.
  - unfold preprocess_text at 1.
    assert (Hno : ~ In CR (preprocess_text t)).
    { intros Hin. apply In_clean_text in Hin.
      exact (replace_cr_no_cr _ Hin). }
    unfold normalize_line_breaks.
    rewrite replace_crlf_id, replace_cr_id by exact Hno.
    apply tidy_clean_text, clean_text_shape.
Qed.

(** X17. The pipeline removes and rewrites whitespace only: the
    characters that are not whitespace come out of [clean_text] and of
    [preprocess_text] unchanged and in their order, the result is never
    longer than the text, and it is empty exactly when the text holds
    nothing but whitespace. *)
Theorem preprocess_text_keeps_ink t :
  ink (clean_text t) = ink t
  /\ ink (preprocess_text t) = ink t
  /\ (length (preprocess_text t) <= length t)%nat
  /\ (preprocess_text t = [] <-> ink t = []).
Proof.
  assert (Hink : ink (preprocess_text t) = ink t).
  { unfold preprocess_text, normalize_line_breaks.
    now rewrite ink_clean_text, ink_replace_cr, ink_replace_crlf. }
  split; [apply ink_clean_text|]. split; [exact Hink|]. split.
  - unfold preprocess_text. rewrite clean_text_unfold.
    pose proof (length_strip (unspace_punct (limit_newlines
      (collapse_spaces (normalize_line_breaks t))))).
    pose proof (length_unspace_punct (limit_newlines
      (collapse_spaces (normalize_line_breaks t)))).
    pose proof (length_limit_newlines
      (collapse_spaces (normalize_line_breaks t))).
    pose proof (length_collapse_spaces (normalize_line_breaks t)).
    assert (length (normalize_line_breaks t) <= length t)%nat.
    { unfold normalize_line_breaks, replace_cr. rewrite length_map.
      apply length_replace_crlf. }
    lia.
  - rewrite <- Hink. split; [now intros ->|].
    destruct (clean_text_shape (normalize_line_breaks t))
      as (_ & _ & _ & Hs & _).
    fold (preprocess_text t) in Hs.
    destruct (preprocess_text t) as [|c r]; [reflexivity|].
    simpl in Hs. rewrite ink_cons, Hs. discriminate.
Qed.

End TextProcessorFacts.

(** ** Properties of the single-image endpoint *)

Module HandlersFacts.

Import Config OrderedDict OrderedDictFacts LRUCache LRUCacheFacts.
Import TextProcessor Handlers.

Section Endpoint.

Variable generate_cache_key : list Byte.byte -> string.

Implicit Types (s : LRUCache.t response_data) (clk : readings).

Lemma make_response_same t c ms ms' m a :
  make_response t c ms m = inr a ->
  exists b, make_response t c ms' (with_cached true m) = inr b
            /\ same_result a b /\ served_from_cache b.
Proof.
  unfold make_response. destruct (Qle_bool 0 c && Qle_bool c 1);
    [|discriminate].
  intros H. injection H as <-. eexists. split; [reflexivity|].
  repeat split.
Qed.

(** After a miss the key has no entry that a later [get] could return,
    and the miss stored nothing and did not count as a set. *)
Lemma get_miss_stays_miss cfg key now s :
  fst (get cfg key now s) = None ->
  (forall now', fst (get cfg key now' (snd (get cfg key now s))) = None)
  /\ sets (_stats (snd (get cfg key now s))) = sets (_stats s)
  /\ (forall k, In k (keys (_cache (snd (get cfg key now s)))) ->
                In k (keys (_cache s))).
Proof.
  unfold get. destruct (CACHE_ENABLED cfg); simpl; [|tauto].
  destruct (getitem key (_cache s)) as [e|] eqn:E.
  - destruct (_is_expired now e); simpl; [|discriminate].
    intros _. rewrite getitem_delitem_same. repeat split.
    intros k Hk. now apply In_keys_delitem in Hk.
  - simpl. intros _. rewrite E. tauto.
Qed.

Lemma extract_text_miss cfg clk content image reply s :
  fst (get cfg (generate_cache_key content) (at_get clk) s) = None ->
  Handlers.extract_text generate_cache_key cfg clk (inr (content, image))
    reply s
  = on_miss cfg clk (generate_cache_key content) image reply
      (snd (get cfg (generate_cache_key content) (at_get clk) s)).
Proof.
  unfold Handlers.extract_text.
  destruct (get cfg (generate_cache_key content) (at_get clk) s)
    as [res s1]. simpl. now intros ->.
Qed.

Lemma extract_text_hit cfg clk content image reply s hit :
  fst (get cfg (generate_cache_key content) (at_get clk) s) = Some hit ->
  Handlers.extract_text generate_cache_key cfg clk (inr (content, image))
    reply s
  = (make_response (text hit) (confidence hit) (elapsed_ms clk)
       (with_cached true (metadata hit)),
     snd (get cfg (generate_cache_key content) (at_get clk) s)).
Proof.
  unfold Handlers.extract_text.
  destruct (get cfg (generate_cache_key content) (at_get clk) s)
    as [res s1]. simpl. now intros ->.
Qed.

(** X18. A request for content that was just recognised and stored is
    answered from the cache: after a request that missed and whose
    backend call succeeded, a second request with the same file content,
    whatever its image metadata, made before the entry expires gets the
    same text and confidence with the [cached] flag set, whatever the
    backend would reply now; it writes nothing, adds one to [hits], and
    fails only if the first response was rejected too. *)
Theorem repeat_request_served_from_cache cfg clk1 clk2 content image image'
    ocr reply2 s :
  CACHE_ENABLED cfg = true ->
  fst (get cfg (generate_cache_key content) (at_get clk1) s) = None ->
  at_get clk2 <= at_set1 clk1 + CACHE_TTL_SECONDS cfg ->
  let first :=
    Handlers.extract_text generate_cache_key cfg clk1
      (inr (content, image)) (inr ocr) s in
  let second :=
    Handlers.extract_text generate_cache_key cfg clk2
      (inr (content, image')) reply2 (snd first) in
  let cleaned := preprocess_text (ocr_text ocr) in
  exists m,
    fst first
      = make_response cleaned (ocr_confidence ocr) (elapsed_ms clk1) m
    /\ cached m = false
    /\ fst second
       = make_response cleaned (ocr_confidence ocr) (elapsed_ms clk2)
           (with_cached true m)
    /\ _cache (snd second) = _cache (snd first)
    /\ hits (_stats (snd second)) = hits (_stats (snd first)) + 1
    /\ sets (_stats (snd second)) = sets (_stats (snd first))
    /\ (forall a, fst first = inr a ->
          exists b, fst second = inr b
                    /\ same_result a b /\ served_from_cache b).
Proof.
  intros En Hmiss Hnow.
  rewrite (extract_text_miss cfg clk1 content image (inr ocr) s Hmiss).
  set (key := generate_cache_key content).
  set (s1 := snd (get cfg key (at_get clk1) s)).
  unfold on_miss.
  match goal with
  | |- context [set cfg key ?d None _ _ s1] => set (data := d)
  end.
  cbn [fst snd].
  set (s2 := set cfg key data None (at_set1 clk1) (at_set2 clk1) s1).
  assert (He : getitem key (_cache s2)
               = Some (new_entry cfg data None (at_set1 clk1) (at_set2 clk1)))
    by now apply set_getitem.
  assert (Hget : get cfg key (at_get clk2) s2 =
            (Some data,
             {| _cache := delitem key (_cache s2)
                          ++ [(key, new_entry cfg data None (at_set1 clk1)
                                      (at_set2 clk1))];
                _stats := incr_hits (_stats s2) |}))
    by exact (get_hit cfg key (at_get clk2) s2 _ En He Hnow).
  rewrite (extract_text_hit cfg clk2 content image' reply2 s2 data)
    by (fold key; now rewrite Hget).
  fold key. rewrite Hget. cbn [fst snd _cache _stats].
  exists (metadata data). split; [reflexivity|]. split; [reflexivity|].
  split; [reflexivity|]. split; [|split; [reflexivity|split; [reflexivity|]]].
  - unfold s2. rewrite set_enabled by exact En.
    cbn [_cache]. rewrite delitem_app.
    rewrite (delitem_absent key (delitem key _))
      by (rewrite In_keys_delitem; tauto).
    simpl. now rewrite String.eqb_refl, app_nil_r.
  - intros a Ha.
    now apply make_response_same with (ms := elapsed_ms clk1).
Qed.

(** X19. Failures are never cached.  When validation raises, the handler
    returns that exception and the cache state it was given.  When the
    request misses and the backend raises, the handler returns that
    exception, the store gains no key and holds no entry for the
    request's key, [sets] is unchanged, and a following [get] of the key
    misses again. *)
Theorem failures_are_not_cached cfg clk s :
  (forall e reply,
     Handlers.extract_text generate_cache_key cfg clk (inl e) reply s
     = (inl e, s))
  /\ (forall content image e,
        let key := generate_cache_key content in
        fst (get cfg key (at_get clk) s) = None ->
        let out :=
          Handlers.extract_text generate_cache_key cfg clk
            (inr (content, image)) (inl e) s in
        fst out = inl e
        /\ snd out = snd (get cfg key (at_get clk) s)
        /\ sets (_stats (snd out)) = sets (_stats s)
        /\ (forall k, In k (keys (_cache (snd out))) ->
                      In k (keys (_cache s)))
        /\ (forall now, fst (get cfg key now (snd out)) = None)).
Proof.
  split; [reflexivity|]. intros content image e key Hmiss.
  rewrite (extract_text_miss cfg clk content image (inl e) s Hmiss).
  fold key. simpl.
  destruct (get_miss_stays_miss cfg key (at_get clk) s Hmiss)
    as (Hstay & Hs & Hk).
  repeat split; auto.
Qed.

End Endpoint.

(** *** The statements at concrete inputs *)

Import Scenario Samples.

Lemma repeat_request_served_from_cache_witness :
  exists b,
    fst (Handlers.extract_text sample_key cfg2 at_twenty
           (inr (bitmap, large_image)) (inl ValidationError)
           (snd (Handlers.extract_text sample_key cfg2 at_ten
                   (inr (bitmap, small_image)) (inr found_text) init)))
    = inr b
    /\ served_from_cache b
    /\ response_text b = Validators.lit "Hi, there".
Proof.
  destruct (repeat_request_served_from_cache sample_key cfg2 at_ten at_twenty
              bitmap small_image large_image found_text
              (inl ValidationError) init)
    as (m & H1 & _ & H2 & _ & _ & _ & Hsame).
  - reflexivity.
  - reflexivity.
  - simpl. lia.
  - destruct (Hsame _ eq_refl) as (b & Hb & Hres & Hcached).
    exists b. split; [exact Hb|]. split; [exact Hcached|].
    destruct Hres as (_ & Ht & _). rewrite <- Ht. reflexivity.
Defined.

End HandlersFacts.

(** ** Properties of the upload validators *)

Module ValidatorsFacts.

Import TextProcessor Handlers Validators.

Lemma first_signature_inr table content f :
  first_signature table content = inr f ->
  exists s, In (s, f) table /\ startswith content s = true.
Proof.
  induction table as [|[s0 f0] rest IH]; simpl; [discriminate|].
  destruct (startswith content s0) eqn:E.
  - intros H. injection H as <-. exists s0. tauto.
  - intros H. destruct (IH H) as [s [Hin Hs]]. exists s. tauto.
Qed.

Lemma first_signature_inl table content e :
  first_signature table content = inl e ->
  e = InvalidFileFormatException
  /\ forall s f, In (s, f) table -> startswith content s = false.
Proof.
  induction table as [|[s0 f0] rest IH]; simpl.
  - intros H. injection H as <-. tauto.
  - destruct (startswith content s0) eqn:E; [discriminate|].
    intros H. destruct (IH H) as [He Hall]. split; [exact He|].
    intros s f [Heq|Hin]; [congruence | eauto].
Qed.

Lemma startswith_head content b s :
  startswith content (b :: s) = true -> hd_error content = Some b.
Proof.
  destruct content as [|c r]; simpl; [discriminate|]. intros H.
  apply andb_true_iff in H as [H _]. apply Byte.byte_dec_bl in H.
  now subst.
Qed.

(** Signatures of the table with the same first byte stand for the same
    format, and every signature has at least two bytes. *)
Lemma signature_table_heads s1 f1 s2 f2 :
  In (s1, f1) FILE_SIGNATURES -> In (s2, f2) FILE_SIGNATURES ->
  (exists b r, s1 = b :: r /\ (2 <= length s1)%nat)
  /\ (hd_error s1 = hd_error s2 -> f1 = f2).
Proof.
  unfold FILE_SIGNATURES. simpl. intros H1 H2.
  repeat match goal with
         | H : _ \/ _ |- _ => destruct H as [H|H]
         | H : False |- _ => destruct H
         | H : (_, _) = (_, _) |- _ => injection H as <- <-
         end;
    (split; [eexists; eexists; split; [reflexivity | simpl; lia]
            | simpl; intros Hh; try reflexivity; discriminate Hh]).
Qed.

(** X20. [validate_file_signature] returns a format exactly when the
    content starts with a signature of the table listed with that format,
    whatever the order of the table, and raises
    [InvalidFileFormatException] exactly when the content starts with
    none; accepted content has at least two bytes. *)
Theorem validate_file_signature_by_prefix content :
  (forall f,
     validate_file_signature content = inr f <->
     exists s, In (s, f) FILE_SIGNATURES /\ startswith content s = true)
  /\ (forall e,
        validate_file_signature content = inl e <->
        e = InvalidFileFormatException
        /\ forall s f, In (s, f) FILE_SIGNATURES ->
                       startswith content s = false)
  /\ (forall f, validate_file_signature content = inr f ->
                (2 <= length content)%nat).
Proof.
  unfold validate_file_signature.
  assert (Hfwd : forall f,
            first_signature FILE_SIGNATURES content = inr f ->
            exists s, In (s, f) FILE_SIGNATURES
                      /\ startswith content s = true)
    by (intros f; apply first_signature_inr).
  split; [|split].
  - intros f. split; [apply Hfwd|]. intros (s & Hin & Hs).
    destruct (first_signature FILE_SIGNATURES content) as [e|f'] eqn:E.
    + apply first_signature_inl in E as [_ Hall].
      rewrite (Hall s f Hin) in Hs. discriminate.
    + destruct (Hfwd f' eq_refl) as (s' & Hin' & Hs').
      destruct (signature_table_heads s f s' f' Hin Hin')
        as [(b & r & -> & _) Hsame].
      destruct (signature_table_heads s' f' s' f' Hin' Hin')
        as [(b' & r' & -> & _) _].
      apply startswith_head in Hs, Hs'. f_equal. symmetry. apply Hsame.
      simpl. congruence.
  - intros e. split; [apply first_signature_inl|]. intros [-> Hall].
    destruct (first_signature FILE_SIGNATURES content) as [e|f'] eqn:E.
    + apply first_signature_inl in E as [-> _]. reflexivity.
    + destruct (Hfwd f' eq_refl) as (s' & Hin' & Hs').
      rewrite (Hall s' f' Hin') in Hs'. discriminate.
  - intros f Hf. destruct (Hfwd f Hf) as (s & Hin & Hs).
    destruct (signature_table_heads s f s f Hin Hin)
      as [(b & r & -> & Hlen) _].
    destruct r as [|b2 r]; [simpl in Hlen; lia|].
    destruct content as [|c0 [|c1 rest]]; simpl in *; try discriminate;
      [|lia].
    rewrite andb_false_r in Hs. discriminate.
Qed.

Lemma str_eqb_eq a b : str_eqb a b = true <-> a = b.
Proof.
  unfold str_eqb. destruct (list_eq_dec N.eq_dec a b);
    intuition congruence.
Qed.

Lemma str_in_In x l : str_in x l = true <-> In x l.
Proof.
  unfold str_in. rewrite existsb_exists. split.
  - intros [y [Hy E]]. apply str_eqb_eq in E. now subst.
  - intros H. exists x. split; [exact H | now apply str_eqb_eq].
Qed.

Lemma has_dot_In t : existsb (N.eqb 46) t = true <-> In 46%N t.
Proof.
  rewrite existsb_exists. split.
  - intros [y [Hy E]]. apply N.eqb_eq in E. now subst.
  - intros H. exists 46%N. split; [exact H | reflexivity].
Qed.

(** What [split('.')[-1]] returns: a text without full stop that is the
    whole text or what follows its last full stop. *)
Lemma last_segment_spec t :
  ~ In 46%N (last_segment t)
  /\ (t = last_segment t
      \/ exists q, t = q ++ 46%N :: last_segment t).
Proof.
  induction t as [|c r [IHno IHsplit]]; [simpl; tauto|]. simpl.
  destruct (existsb (N.eqb 46) r) eqn:E.
  - split; [exact IHno|]. right. destruct IHsplit as [Hr|[q Hq]].
    + exfalso. apply has_dot_In in E. rewrite Hr in E. tauto.
    + exists (c :: q). simpl. now rewrite <- Hq.
  - assert (Hr : ~ In 46%N r).
    { intros H. apply has_dot_In in H. congruence. }
    destruct (N.eqb_spec c 46) as [->|Hc].
    + split; [exact Hr|]. right. now exists [].
    + split; [|now left]. simpl. intros [H|H]; [congruence | tauto].
Qed.

Lemma validate_file_size_ok mb size :
  (0 <= size)%Z ->
  validate_file_size mb size = inr tt
  <-> (1 <= size <= MAX_FILE_SIZE_BYTES mb)%Z.
Proof.
  intros Hpos. unfold validate_file_size.
  destruct (Z.eqb_spec size 0); [split; [discriminate | lia]|].
  destruct (Z.ltb_spec (MAX_FILE_SIZE_BYTES mb) size);
    split; try discriminate; try lia; reflexivity.
Qed.

Section Upload.

Variable lower : str -> str.
Variable detect_corruption : list Byte.byte -> option corruption_check.
Variable attempt_repair : list Byte.byte -> list Byte.byte.
Variable open_image : list Byte.byte -> option image_metadata.
Variable MAX_FILE_SIZE_MB : Z.

(** X21. [validate_file_extension] accepts exactly the non-empty names
    whose lower-cased form, taken whole when it has no full stop and after
    its last full stop otherwise, is one of the allowed extensions, and
    returns that extension; so a name without any full stop, such as
    [png], is accepted, and [None] and the empty name are rejected. *)
Theorem validate_file_extension_accepts name ext :
  validate_file_extension lower name = inr ext
  <-> exists n,
        name = Some n /\ n <> []
        /\ In ext ALLOWED_EXTENSIONS
        /\ ~ In 46%N ext
        /\ (lower n = ext \/ exists q, lower n = q ++ 46%N :: ext).
Proof.
  unfold validate_file_extension. split.
  - destruct name as [[|c r]|]; try discriminate.
    destruct (str_in (last_segment (lower (c :: r))) ALLOWED_EXTENSIONS)
      eqn:E; [|discriminate].
    intros H. injection H as <-. exists (c :: r).
    destruct (last_segment_spec (lower (c :: r))) as [Hno Hsplit].
    split; [reflexivity|]. split; [discriminate|].
    split; [now apply str_in_In|]. split; [exact Hno | exact Hsplit].
  - intros (n & -> & Hne & Hin & Hno & Hshape).
    destruct n as [|c r]; [contradiction|].
    assert (Hseg : last_segment (lower (c :: r)) = ext).
    { destruct (last_segment_spec (lower (c :: r))) as [Hno' Hsplit].
      destruct Hshape as [H|[q Hq]].
      - destruct Hsplit as [H'|[q' Hq']]; [congruence|].
        exfalso. apply Hno. rewrite <- H, Hq'.
        apply in_app_iff. right. now left.
      - destruct Hsplit as [H'|[q' Hq']].
        + exfalso. apply Hno'. rewrite <- H', Hq.
          apply in_app_iff. right. now left.
        + clear - Hq Hq' Hno Hno'.
          set (a := last_segment (lower (c :: r))) in *.
          assert (Hrev : rev ext ++ 46%N :: rev q
                         = rev a ++ 46%N :: rev q').
          { rewrite Hq in Hq'. apply (f_equal (@rev N)) in Hq'.
            rewrite !rev_app_distr in Hq'. simpl in Hq'.
            now rewrite <- !app_assoc in Hq'. }
          assert (Hside : forall x y p p',
                    ~ In 46%N x -> ~ In 46%N y ->
                    x ++ 46%N :: p = y ++ 46%N :: p' -> x = y).
          { induction x as [|u x IHx]; intros [|v y] p p' Hx Hy Heq;
              simpl in *; try reflexivity.
            - injection Heq as Hv _. exfalso. apply Hy. now left.
            - injection Heq as Hu _. exfalso. apply Hx. now left.
            - injection Heq as -> Heq. f_equal.
              apply (IHx y p p'); tauto. }
          assert (Hr : rev ext = rev a).
          { apply (Hside _ _ (rev q) (rev q')); [| |exact Hrev];
              rewrite <- in_rev; assumption. }
          rewrite <- (rev_involutive a), <- Hr. apply rev_involutive. }
    rewrite Hseg. apply str_in_In in Hin. now rewrite Hin.
Qed.

(** X22. [validate_upload_file] accepts an upload exactly when its name
    and content type pass their checks, its content has between 1 and
    [MAX_FILE_SIZE_BYTES] bytes and starts with a known signature, and the
    image check accepts the content; what it returns is the content and
    the metadata the image check returned. *)
Theorem validate_upload_file_accepts file c m :
  validate_upload_file lower detect_corruption attempt_repair open_image
    MAX_FILE_SIZE_MB file
  = inr (c, m)
  <-> (exists ext, validate_file_extension lower (filename file) = inr ext)
      /\ validate_mime_type (content_type file) = inr tt
      /\ (1 <= Z.of_nat (length (content file))
           <= MAX_FILE_SIZE_BYTES MAX_FILE_SIZE_MB)%Z
      /\ (exists f, validate_file_signature (content file) = inr f)
      /\ validate_image_integrity detect_corruption attempt_repair open_image
           (content file)
         = inr (m, c).
Proof.
  unfold validate_upload_file, bind.
  rewrite <- validate_file_size_ok by lia.
  destruct (validate_file_extension lower (filename file)) as [e1|ext].
  { split; [discriminate | intros [[x Hx] _]; discriminate]. }
  destruct (validate_mime_type (content_type file)) as [e2|[]].
  { split; [discriminate | intros (_ & H & _); discriminate]. }
  destruct (validate_file_size MAX_FILE_SIZE_MB
              (Z.of_nat (length (content file)))) as [e3|[]].
  { split; [discriminate | intros (_ & _ & H & _); discriminate]. }
  destruct (validate_file_signature (content file)) as [e4|f].
  { split; [discriminate | intros (_ & _ & _ & [x Hx] & _); discriminate]. }
  destruct (validate_image_integrity detect_corruption attempt_repair open_image
           (content file)) as [e5|[m' c']].
  { split; [discriminate | intros (_ & _ & _ & _ & H); discriminate]. }
  simpl. split.
  - intros H. injection H as -> ->. repeat split; eauto.
  - intros (_ & _ & _ & _ & H). now injection H as -> ->.
Qed.

(** X23. The name and the content type of an upload matter only through
    their checks: two uploads with the same content whose names and
    content types all pass get the same result, so the declared extension
    is never compared with the format the signature shows. *)
Theorem validate_upload_file_ignores_names file file' :
  content file = content file' ->
  (exists e, validate_file_extension lower (filename file) = inr e) ->
  (exists e, validate_file_extension lower (filename file') = inr e) ->
  validate_mime_type (content_type file) = inr tt ->
  validate_mime_type (content_type file') = inr tt ->
  validate_upload_file lower detect_corruption attempt_repair open_image
    MAX_FILE_SIZE_MB file
  = validate_upload_file lower detect_corruption attempt_repair open_image
    MAX_FILE_SIZE_MB
      file'.
Proof.
  intros Hc [e He] [e' He'] Hm Hm'. unfold validate_upload_file.
  now rewrite He, He', Hm, Hm', Hc.
Qed.

(** X24. The size check comes before every check of the bytes: with a
    name and type that pass, an empty upload raises
    [InvalidFileException] although it has no signature, and an upload
    longer than the limit raises [FileSizeExceededException] whatever its
    bytes are. *)
Theorem validate_upload_file_size_first file :
  (exists e, validate_file_extension lower (filename file) = inr e) ->
  validate_mime_type (content_type file) = inr tt ->
  let size := Z.of_nat (length (content file)) in
  let result :=
    validate_upload_file lower detect_corruption attempt_repair open_image
    MAX_FILE_SIZE_MB
      file in
  (size = 0%Z -> result = inl InvalidFileException)
  /\ (size <> 0%Z -> (MAX_FILE_SIZE_BYTES MAX_FILE_SIZE_MB < size)%Z ->
      result = inl FileSizeExceededException).
Proof.
  intros [e He] Hm. unfold validate_upload_file, validate_file_size.
  rewrite He, Hm. simpl. split.
  - intros H0. now rewrite H0.
  - intros Hne Hbig.
    destruct (Z.eqb_spec (Z.of_nat (length (content file))) 0);
      [contradiction|].
    apply Z.ltb_lt in Hbig. now rewrite Hbig.
Qed.

(** X25. [validate_image_integrity] raises nothing but
    [InvalidFileException], and the content it returns is never content
    that the corruption check flags or fails on: it is the given content
    when the check passes it, and otherwise the repaired content, and
    then only if the check passes the repaired content; the metadata
    returned is read from the returned content. *)
Theorem validate_image_integrity_never_accepts_flagged file_content :
  (forall e,
     validate_image_integrity detect_corruption attempt_repair open_image
       file_content = inl e ->
     e = InvalidFileException)
  /\ (forall m c,
        validate_image_integrity detect_corruption attempt_repair open_image
          file_content = inr (m, c) ->
        open_image c = Some m
        /\ (exists check, detect_corruption c = Some check
                          /\ is_corrupted check = false)
        /\ (exists check0,
              detect_corruption file_content = Some check0
              /\ (is_corrupted check0 = false /\ c = file_content
                  \/ is_corrupted check0 = true
                     /\ c = attempt_repair file_content))).
Proof.
  unfold validate_image_integrity, bind.
  destruct (detect_corruption file_content) as [check0|] eqn:D0.
  2: { split; [intros e H; now injection H as <- | discriminate]. }
  destruct (is_corrupted check0) eqn:C0.
  - destruct (detect_corruption (attempt_repair file_content))
      as [check1|] eqn:D1.
    2: { split; [intros e H; now injection H as <- | discriminate]. }
    destruct (is_corrupted check1) eqn:C1.
    { split; [intros e H; now injection H as <- | discriminate]. }
    destruct (open_image (attempt_repair file_content)) as [m0|] eqn:O.
    2: { split; [intros e H; now injection H as <- | discriminate]. }
    split; [discriminate|]. intros m c H. injection H as <- <-.
    split; [exact O|]. split; [now exists check1|].
    exists check0. split; [reflexivity|]. right. tauto.
  - destruct (open_image file_content) as [m0|] eqn:O.
    2: { split; [intros e H; now injection H as <- | discriminate]. }
    split; [discriminate|]. intros m c H. injection H as <- <-.
    split; [exact O|]. split; [now exists check0|].
    exists check0. split; [reflexivity|]. left. tauto.
Qed.

End Upload.

(** *** The statements at concrete inputs *)

Import Samples.

Lemma validate_upload_file_ignores_names_witness :
  validate_upload_file ascii_lower passes_all no_repair reads_small 10
    upload_png_name
  = validate_upload_file ascii_lower passes_all no_repair reads_small 10
      upload_bare_name.
Proof.
  apply (validate_upload_file_ignores_names ascii_lower passes_all no_repair
           reads_small 10 upload_png_name upload_bare_name).
  - reflexivity.
  - eexists. reflexivity.
  - eexists. reflexivity.
  - reflexivity.
  - reflexivity.
Defined.

Lemma validate_upload_file_size_first_witness :
  validate_upload_file ascii_lower passes_all no_repair reads_small 10
    upload_empty
  = inl InvalidFileException.
Proof.
  destruct (validate_upload_file_size_first ascii_lower passes_all no_repair
              reads_small 10 upload_empty) as [H _].
  - eexists. reflexivity.
  - reflexivity.
  - apply H. reflexivity.
Defined.

End ValidatorsFacts.
